(** * taipy.gui.builder._element : a shallow embedding

  The module [taipy/gui/builder/_element.py] defines the element classes
  of the page builder: [_Element], [_Block], [_DefaultBlock], [html] and
  [_Control].  This development embeds their methods as Rocq functions and
  proves the properties of key and value normalisation, of the container
  protocol ([add], [__enter__], [__exit__], implicit registration in
  [__new__]) and of rendering.

  Conventions.
  - Python [str] is Rocq [string]; the ASCII range is modelled (keyword
    names are identifiers), so [\w] is [A-Za-z0-9_].
  - A Python object is a [pyval]: what [id], [hasattr(_, "__name__")],
    [isinstance], [bool] and [str] observe of it.
  - Objects of the element classes live in a heap indexed by address; the
    methods are computations in a state-and-exception monad, the state
    surviving a raised exception as it does in Python. *)

From Stdlib Require Import ZArith Ascii String DecimalString Bool Lia.
From stdpp Require Import base option list strings.

(** ** Strings *)

Module Str.

Definition newline : ascii := ascii_of_nat 10.
Definition underscore : ascii := ascii_of_nat 95.

(** The separator of [_render_children], and what [$] tolerates. *)
Definition line_break : string := String newline "".

(** One double-quote character, as the f-string [k="v"] emits. *)
Definition dquote : string := String (ascii_of_nat 34) "".

Definition is_newline (c : ascii) : bool := Ascii.eqb c newline.

(** [\w] (and [\d], which it contains) on ASCII. *)
Definition is_word (c : ascii) : bool :=
  let n := nat_of_ascii c in
  ((48 <=? n) && (n <=? 57)) || ((65 <=? n) && (n <=? 90))
  || ((97 <=? n) && (n <=? 122)) || (n =? 95).

(** [str.isspace] on ASCII: TAB..CR, FS..US and the space. *)
Definition is_space (c : ascii) : bool :=
  let n := nat_of_ascii c in
  ((9 <=? n) && (n <=? 13)) || ((28 <=? n) && (n <=? 32)).

Fixpoint lstrip (s : string) : string :=
  match s with
  | "" => ""
  | String c rest => if is_space c then lstrip rest else s
  end.

Fixpoint rstrip (s : string) : string :=
  match s with
  | "" => ""
  | String c rest =>
      match rstrip rest with
      | "" => if is_space c then "" else String c ""
      | r => String c r
      end
  end.

(** [s.strip()] *)
Definition strip (s : string) : string := rstrip (lstrip s).

(** [s.startswith(p)] *)
Fixpoint startswith (p s : string) : bool :=
  match p, s with
  | "", _ => true
  | String _ _, "" => false
  | String a p', String b s' => Ascii.eqb a b && startswith p' s'
  end.

(** [needle in hay] *)
Fixpoint contains (needle hay : string) : bool :=
  startswith needle hay
  || match hay with
     | "" => false
     | String _ hay' => contains needle hay'
     end.

(** [sep.join(parts)] *)
Fixpoint join (sep : string) (parts : list string) : string :=
  match parts with
  | [] => ""
  | [p] => p
  | p :: rest => p +:+ sep +:+ join sep rest
  end.

Fixpoint all_word (s : string) : bool :=
  match s with
  | "" => true
  | String c rest => is_word c && all_word rest
  end.

Fixpoint no_newline (s : string) : bool :=
  match s with
  | "" => true
  | String c rest => negb (is_newline c) && no_newline rest
  end.

End Str.

(** ** The indexed-property pattern

  [__RE_INDEXED_PROPERTY = re.compile(r"^(.*?)__([\w\d]+)$")], applied with
  [match]: group 1 is lazy and cannot cross a line break, group 2 is a
  non-empty run of word characters, and [$] accepts the end of the string
  or the position before a final line break. *)

Module Re.
Import Str.

(** [[\w\d]*$] at [s]: the run matched. *)
Fixpoint word_tail (s : string) : option string :=
  match s with
  | "" => Some ""
  | String c rest =>
      if is_word c then String c <$> word_tail rest
      else if is_newline c && bool_decide (rest = "") then Some "" else None
  end.

(** [[\w\d]+$] at [s]. *)
Definition index_token (s : string) : option string :=
  match word_tail s with
  | Some (String c w) => Some (String c w)
  | _ => None
  end.

(** [__([\w\d]+)$] at [s]. *)
Definition after_delim (s : string) : option string :=
  match s with
  | String a (String b rest) =>
      if Ascii.eqb a underscore && Ascii.eqb b underscore
      then index_token rest else None
  | _ => None
  end.

(** The whole pattern: the shortest group 1 is tried first. *)
Fixpoint indexed_match (key : string) : option (string * string) :=
  match after_delim key with
  | Some g2 => Some ("", g2)
  | None =>
      match key with
      | "" => None
      | String c rest =>
          if is_newline c then None
          else (λ g, (String c g.1, g.2)) <$> indexed_match rest
      end
  end.

End Re.

(** [_Element._parse_property_key] *)
Definition _parse_property_key (key : string) : string :=
  match Re.indexed_match key with
  | Some (g1, g2) => g1 +:+ "[" +:+ g2 +:+ "]"
  | None => key
  end.


(** [name] is the shortest prefix of [name__k] that a double underscore
  and a non-empty run of word characters up to the end follow. *)
Definition shortest_split (name k : string) : Prop :=
  ∀ p w, name +:+ "__" +:+ k = p +:+ "__" +:+ w → Str.no_newline p = true →
         w ≠ "" → Str.all_word w = true → String.length name ≤ String.length p.

(** [key] is [p__w], or [p__w] and a final line break, for a [p] free of
  line breaks and a non-empty run [w] of word characters. *)
Definition indexed (key : string) : Prop :=
  ∃ p w t, key = p +:+ "__" +:+ w +:+ t ∧ Str.no_newline p = true ∧ w ≠ ""
           ∧ Str.all_word w = true ∧ (t = "" ∨ t = Str.line_break).

(** ** Python values *)

Inductive pydata :=
| PyNone
| PyBool (b : bool)
| PyInt (n : Z)
| PyStr (s : string)
| PyCollection (shown : string) (nonempty : bool)
| PyObject (shown : string).

(** [py_id] is the identity of the object; [None] is the identity of a
  temporary that the normaliser itself has just produced ([str(..)], a
  concatenation, the result of [ast.literal_eval]) and that no variable of
  the caller refers to.  [py_name] is [str(value.__name__)] when the
  attribute exists.  [PyCollection] stands for every instance of [dict] or
  [Iterable] other than [str], [PyObject] for every other object; both
  carry what [str] returns for them. *)
Record pyval := PyVal {
  py_id : option nat;
  py_name : option string;
  py_data : pydata
}.

(** [a is b] *)
Definition py_is (a b : pyval) : bool :=
  match py_id a, py_id b with
  | Some i, Some j => i =? j
  | _, _ => false
  end.

Definition data_str (d : pydata) : string :=
  match d with
  | PyNone => "None"
  | PyBool true => "True"
  | PyBool false => "False"
  | PyInt n => NilZero.string_of_int (Z.to_int n)
  | PyStr s => s
  | PyCollection shown _ => shown
  | PyObject shown => shown
  end.

(** [str(v)] *)
Definition py_str (v : pyval) : string := data_str (py_data v).

(** [bool(v)] *)
Definition py_truthy (v : pyval) : bool :=
  match py_data v with
  | PyNone => false
  | PyBool b => b
  | PyInt n => negb (n =? 0)%Z
  | PyStr s => negb (String.eqb s "")
  | PyCollection _ nonempty => nonempty
  | PyObject _ => true
  end.

(** [isinstance(v, (str, dict, Iterable))] *)
Definition is_str_dict_iterable (v : pyval) : bool :=
  match py_data v with
  | PyStr _ | PyCollection _ _ => true
  | _ => false
  end.

(** A [str] object fresh from an expression. *)
Definition new_str (s : string) : pyval := PyVal None None (PyStr s).

(** [copy.deepcopy(v)]: collections and plain objects are duplicated, the
  atomic kinds (and classes and functions) are shared. *)
Definition deepcopy (v : pyval) : pyval :=
  match py_data v, py_name v with
  | PyCollection _ _, _ | PyObject _, None => PyVal None (py_name v) (py_data v)
  | _, _ => v
  end.

(** ** Dictionaries

  A Python [dict] keeps its keys unique and in insertion order; assigning
  to a key that is present keeps its position. *)

Abbreviation dict K V := (list (K * V)) (only parsing).

Section Dict.
Context {K V : Type} `{EqDecision K}.

(** [d.get(k)] / [d[k]] *)
Fixpoint dict_get (d : dict K V) (k : K) : option V :=
  match d with
  | [] => None
  | (k', v) :: d' => if decide (k' = k) then Some v else dict_get d' k
  end.

(** [d[k] = v] *)
Fixpoint dict_set (d : dict K V) (k : K) (v : V) : dict K V :=
  match d with
  | [] => [(k, v)]
  | (k', v') :: d' =>
      if decide (k' = k) then (k', v) :: d' else (k', v') :: dict_set d' k v
  end.

(** [del d[k]] *)
Definition dict_del (d : dict K V) (k : K) : dict K V :=
  filter (λ kv, kv.1 ≠ k) d.

(** [d.update(other)] *)
Definition dict_update (d other : dict K V) : dict K V :=
  foldl (λ acc kv, dict_set acc kv.1 kv.2) d other.

(** [list(d.keys())] *)
Definition dict_keys (d : dict K V) : list K := d.*1.

End Dict.

(** ** Exceptions

  [BadAddress] is not a Python exception: it is what the model answers
  when an address does not denote an object of the heap, which a Python
  reference never does. *)

Inductive exn :=
| SyntaxError
| ValueError
| KeyError
| AttributeError
| TypeError
| RecursionError
| ScopeError
| BadAddress
| RuntimeError (msg : string).

Inductive result (A : Type) :=
| Ok (a : A)
| Raise (e : exn).
Arguments Ok {A} a.
Arguments Raise {A} e.

Definition result_bind {A B} (r : result A) (f : A → result B) : result B :=
  match r with
  | Ok a => f a
  | Raise e => Raise e
  end.

(** A loop whose body may raise. *)
Fixpoint result_fold {A B} (f : B → A → result B) (l : list A) (acc : B)
  : result B :=
  match l with
  | [] => Ok acc
  | x :: l' => result_bind (f acc x) (result_fold f l')
  end.

(** ** The call site

  [inspect] hands [_Element] a frame: the local variables of the caller
  and the source lines of the call.  [ast.parse] of a line either raises
  [SyntaxError] or yields a tree, of which [ast.walk] enumerates the
  [Call] nodes; an argument is a bare name, a literal, or an expression
  that [ast.literal_eval] rejects. *)

Inductive ast_expr :=
| ast_Name (id : string)
| ast_Literal (value : pydata)
| ast_Expression.

Record ast_keyword := Keyword {
  kw_arg : option string;
  kw_value : ast_expr
}.

Record ast_Call := Call {
  call_args : list ast_expr;
  call_keywords : list ast_keyword
}.

Record FrameInfo := Frame {
  f_locals : dict string pyval;
  code_context : list (option (list ast_Call))
}.

(** [value = arg.id if isinstance(arg, ast.Name) else ast.literal_eval(arg)] *)
Definition code_value (e : ast_expr) : result pyval :=
  match e with
  | ast_Name id => Ok (new_str id)
  | ast_Literal d => Ok (PyVal None None d)
  | ast_Expression => Raise ValueError
  end.

Abbreviation code_arguments_t := (dict (option string) pyval) (only parsing).

(** The body of [if isinstance(node, ast.Call)]. *)
Definition scan_call (default_property : string)
  (code_arguments : code_arguments_t) (node : ast_Call)
  : result code_arguments_t :=
  result_bind
    (match call_args node with
     | arg :: _ =>
         if bool_decide (default_property ≠ "")
         then result_bind (code_value arg) (λ value,
                Ok (dict_set code_arguments (Some default_property) value))
         else Ok code_arguments
     | [] => Ok code_arguments
     end)
    (λ code_arguments,
      result_fold
        (λ code_arguments kw,
          result_bind (code_value (kw_value kw)) (λ value,
            Ok (dict_set code_arguments (kw_arg kw) value)))
        (call_keywords node) code_arguments).

(** The body of [for c in code_context]. *)
Definition scan_line (default_property : string)
  (code_arguments : code_arguments_t) (c : option (list ast_Call))
  : result code_arguments_t :=
  match c with
  | None => Raise SyntaxError
  | Some calls => result_fold (scan_call default_property) calls code_arguments
  end.

(** [_Element.__get_code_arguments] *)
Definition __get_code_arguments (default_property : string) (frame : FrameInfo)
  : result code_arguments_t :=
  result_fold (scan_line default_property) (code_context frame) [].

(** ** Value normalisation *)

(** [str(code_arguments[key]).strip()], when [key in code_arguments]. *)
Definition source_text (code_arguments : code_arguments_t) (key : string)
  : option string :=
  (λ v, Str.strip (py_str v)) <$> dict_get code_arguments (Some key).

(** The condition of the loop over [self.__locals.items()]. *)
Definition binds (key : string) (value : pyval)
  (code_arguments : code_arguments_t) (kv : string * pyval) : bool :=
  py_is kv.2 value
  && match source_text code_arguments key with
     | Some text => String.eqb text (Str.strip kv.1)
     | None => false
     end.

(** [_Element._parse_property] *)
Definition _parse_property (locals : dict string pyval) (key : string)
  (value : pyval) (code_arguments : code_arguments_t) : pyval :=
  match py_name value with
  | Some name => new_str name
  | None =>
      match find (binds key value code_arguments) locals with
      | Some (k, _) => new_str ("{" +:+ k +:+ "}")
      | None =>
          if is_str_dict_iterable value then value
          else new_str (py_str value)
      end
  end.

(** [_Element._parse_properties]: the loop over [list(updated_property_list)],
  on the dictionary [self._properties].  The dictionary is returned also
  when [self._properties[k]] raises. *)
Fixpoint _parse_properties (locals : dict string pyval)
  (code_arguments : code_arguments_t) (updated_property_list : list string)
  (properties : dict string pyval) : result unit * dict string pyval :=
  match updated_property_list with
  | [] => (Ok (), properties)
  | k :: rest =>
      match dict_get properties k with
      | None => (Raise KeyError, properties)
      | Some v =>
          let properties1 :=
            if bool_decide (k ≠ _parse_property_key k)
            then dict_del properties k else properties in
          let k1 := _parse_property_key k in
          _parse_properties locals code_arguments rest
            (dict_set properties1 k1 (_parse_property locals k1 v code_arguments))
      end
  end.

(** ** Classes and objects *)

Inductive base_class := Block | Html | Control.

(** A concrete element class: the class of [_element.py] it derives from
  and its class attributes. *)
Record pyclass := Class {
  cls_base : base_class;
  cls_ELEMENT_NAME : string;
  cls_DEFAULT_PROPERTY : string
}.

Definition _DefaultBlock : pyclass := Class Block "part" "".
Definition html : pyclass := Class Html "" "".

(** The instance attributes; [None] is an attribute not assigned yet.
  [_ELEMENT_NAME] is the instance attribute that [html.__init__] assigns
  (to a tag or to [None]), shadowing the class attribute. *)
Record element := Element {
  el_class : pyclass;
  _Element__locals : option (dict string pyval);
  _properties : option (dict string pyval);
  _children : option (list nat);
  _ELEMENT_NAME : option (option pyval);
  _content : option pyval
}.

(** What [object.__new__] returns. *)
Definition blank (cls : pyclass) : element :=
  Element cls None None None None None.

(** The heap of elements and the stack of [_BuilderContextManager]. *)
Record world := World {
  heap : list element;
  blocks : list nat
}.

(** ** Computations *)

Definition M (A : Type) : Type := world → result A * world.

Definition ret {A} (a : A) : M A := λ w, (Ok a, w).
Definition raise {A} (e : exn) : M A := λ w, (Raise e, w).
Definition bind {A B} (m : M A) (f : A → M B) : M B :=
  λ w, match m w with
       | (Ok a, w') => f a w'
       | (Raise e, w') => (Raise e, w')
       end.
Definition lift {A} (r : result A) : M A := λ w, (r, w).

#[global] Instance M_ret : MRet M := @ret.
#[global] Instance M_bind : MBind M := λ A B f m, bind m f.

Fixpoint for_each {A} (l : list A) (body : A → M unit) : M unit :=
  match l with
  | [] => ret ()
  | x :: l' => body x;; for_each l' body
  end.

(** The object at an address. *)
Definition deref (self : nat) : M element :=
  λ w, match heap w !! self with
       | Some o => (Ok o, w)
       | None => (Raise BadAddress, w)
       end.

(** [getattr(self, a)], raising [AttributeError] when unassigned. *)
Definition getattr {A} (field : element → option A) (self : nat) : M A :=
  o ← deref self;
  match field o with
  | Some x => ret x
  | None => raise AttributeError
  end.

Definition store (self : nat) (o : element) : M unit :=
  λ w, (Ok (), World (<[self := o]> (heap w)) (blocks w)).

(** Assignment to attributes of [self]. *)
Definition setattr (f : element → element) (self : nat) : M unit :=
  o ← deref self;
  store self (f o).

Definition set_locals (x : dict string pyval) (o : element) : element :=
  Element (el_class o) (Some x) (_properties o) (_children o)
    (_ELEMENT_NAME o) (_content o).
Definition set_properties (x : dict string pyval) (o : element) : element :=
  Element (el_class o) (_Element__locals o) (Some x) (_children o)
    (_ELEMENT_NAME o) (_content o).
Definition set_children (x : list nat) (o : element) : element :=
  Element (el_class o) (_Element__locals o) (_properties o) (Some x)
    (_ELEMENT_NAME o) (_content o).
Definition set_ELEMENT_NAME (x : option pyval) (o : element) : element :=
  Element (el_class o) (_Element__locals o) (_properties o) (_children o)
    (Some x) (_content o).
Definition set_content (x : pyval) (o : element) : element :=
  Element (el_class o) (_Element__locals o) (_properties o) (_children o)
    (_ELEMENT_NAME o) (Some x).

(** ** _BuilderContextManager *)

(** Modelled from the spec: the class [_BuilderContextManager] of
  [_context_manager.py], of which [_element.py] uses [push], [pop] and
  [peek].  BuilderContext is a process-wide stack of containers,
  empty at start; scope entry pushes, scope exit pops, [peek] is the
  topmost container or none, and a pop without a matching push is a
  scope-discipline error raised at once. *)
Definition push (element : nat) : M unit :=
  λ w, (Ok (), World (heap w) (element :: blocks w)).

(** Modelled from the spec: [_BuilderContextManager.pop], see [push]. *)
Definition pop : M nat :=
  λ w, match blocks w with
       | top :: rest => (Ok top, World (heap w) rest)
       | [] => (Raise ScopeError, w)
       end.

(** Modelled from the spec: [_BuilderContextManager.peek], see [push]. *)
Definition peek : M (option nat) :=
  λ w, (Ok (head (blocks w)), w).

(** ** _Block.add and _Element.__new__ *)

(** [_Block.add]: [element not in self._children] compares by identity,
  the element classes defining no [__eq__]. *)
Definition add (self : nat) (elements : list nat) : M nat :=
  for_each elements (λ element,
    children ← getattr _children self;
    if bool_decide (element ∈ children) then ret ()
    else setattr (set_children (children ++ [element])) self);;
  ret self.

(** [super(_Element, cls).__new__(cls)]: a new object at a new address. *)
Definition allocate (cls : pyclass) : M nat :=
  λ w, (Ok (length (heap w)), World (heap w ++ [blank cls]) (blocks w)).

(** [_Element.__new__] *)
Definition __new__ (cls : pyclass) : M nat :=
  obj ← allocate cls;
  parent ← peek;
  match parent with
  | Some parent => add parent [obj];; ret obj
  | None => ret obj
  end.

(** ** Initialisers *)

(** [_Element.__init__]; [source_frame] is [inspect.stack()[3]]. *)
Definition _Element__init__ (self : nat) (args : list pyval)
  (kwargs : dict string pyval) (source_frame : FrameInfo) : M unit :=
  o ← deref self;
  let default_property := cls_DEFAULT_PROPERTY (el_class o) in
  setattr (set_locals
    (filter (λ kv, Str.startswith "_" kv.1 = false) (f_locals source_frame))) self;;
  setattr (set_properties []) self;;
  match args with
  | arg0 :: _ =>
      if bool_decide (default_property ≠ "")
      then setattr (set_properties [(default_property, arg0)]) self
      else ret ()
  | [] => ret ()
  end;;
  properties ← getattr _properties self;
  setattr (set_properties (dict_update properties kwargs)) self;;
  code_arguments ← lift (__get_code_arguments default_property source_frame);
  properties ← getattr _properties self;
  locals ← getattr _Element__locals self;
  let r := _parse_properties locals code_arguments (dict_keys properties)
             properties in
  setattr (set_properties r.2) self;;
  lift r.1.

(** [_Block.__init__] *)
Definition _Block__init__ (self : nat) (args : list pyval)
  (kwargs : dict string pyval) (source_frame : FrameInfo) : M unit :=
  _Element__init__ self args kwargs source_frame;;
  setattr (set_children []) self.

(** [html.__init__] *)
Definition html__init__ (self : nat) (args : list pyval)
  (kwargs : dict string pyval) (source_frame : FrameInfo) : M unit :=
  _Block__init__ self args kwargs source_frame;;
  match args with
  | [] => raise (RuntimeError "Can't render html element. Missing html tag name.")
  | arg0 :: rest =>
      setattr (set_ELEMENT_NAME (if py_truthy arg0 then Some arg0 else None)) self;;
      setattr (set_content (match rest with
                            | arg1 :: _ => arg1
                            | [] => new_str ""
                            end)) self
  end.

(** [_Control.__init__] *)
Definition _Control__init__ (self : nat) (args : list pyval)
  (kwargs : dict string pyval) (source_frame : FrameInfo) : M unit :=
  _Element__init__ self args kwargs source_frame.

(** [type(self).__init__], by the class of [self]. *)
Definition __init__ (cls : pyclass) : nat → list pyval → dict string pyval →
  FrameInfo → M unit :=
  match cls_base cls with
  | Block => _Block__init__
  | Html => html__init__
  | Control => _Control__init__
  end.

(** The call of the class on [args] and [kwargs]: [__new__], then [__init__] on the
  object it returned. *)
Definition construct (cls : pyclass) (args : list pyval)
  (kwargs : dict string pyval) (source_frame : FrameInfo) : M nat :=
  obj ← __new__ cls;
  __init__ cls obj args kwargs source_frame;;
  ret obj.

(** ** _Element.update *)

(** [_Element.update]; [update_source_frame] is [inspect.stack()[1]].  The
  snapshot [self.__locals] is the one taken by [__init__]: an object with
  [_properties] assigned has it. *)
Definition update (self : nat) (args : list pyval)
  (kwargs : dict string pyval) (update_source_frame : FrameInfo) : M unit :=
  o ← deref self;
  let default_property := cls_DEFAULT_PROPERTY (el_class o) in
  let kwargs :=
    match args with
    | arg0 :: _ => dict_set kwargs default_property arg0
    | [] => kwargs
    end in
  properties ← getattr _properties self;
  setattr (set_properties (dict_update properties kwargs)) self;;
  code_arguments ← lift (__get_code_arguments default_property update_source_frame);
  properties ← getattr _properties self;
  locals ← getattr _Element__locals self;
  let r := _parse_properties locals code_arguments (dict_keys kwargs)
             properties in
  setattr (set_properties r.2) self;;
  lift r.1.

(** [_Element.get_properties] *)
Definition get_properties (o : element) (deep : bool)
  : result (dict string pyval) :=
  match _properties o with
  | Some properties =>
      Ok (if deep then prod_map id deepcopy <$> properties else properties)
  | None => Raise AttributeError
  end.

(** ** Scopes *)

Definition context_manager_error (o : element) : exn :=
  RuntimeError ("Can't use Context Manager for control type '"
                +:+ cls_ELEMENT_NAME (el_class o) +:+ "'").

(** [_Block.__enter__] and [_Control.__enter__] *)
Definition __enter__ (self : nat) : M nat :=
  o ← deref self;
  match cls_base (el_class o) with
  | Block | Html => push self;; ret self
  | Control => raise (context_manager_error o)
  end.

(** [_Block.__exit__] and [_Control.__exit__] *)
Definition __exit__ (self : nat) : M unit :=
  o ← deref self;
  match cls_base (el_class o) with
  | Block | Html => pop;; ret ()
  | Control => raise (context_manager_error o)
  end.

(** The children of a container, as a list (empty when it has none). *)
Definition children_of (w : world) (self : nat) : list nat :=
  default [] (heap w !! self ≫= _children).

(** Child lists mention allocated objects only. *)
Definition closed (w : world) : Prop :=
  ∀ self child, child ∈ children_of w self → child < length (heap w).

(** ** Rendering *)

(** [self._ELEMENT_NAME]: the instance attribute, else the class attribute. *)
Definition element_name (o : element) : option pyval :=
  match _ELEMENT_NAME o with
  | Some name => name
  | None => Some (new_str (cls_ELEMENT_NAME (el_class o)))
  end.

(** The [else] branch of [html._render]: [return self._content]. *)
Definition text_node (o : element) : result pyval :=
  match _content o with
  | Some content => Ok content
  | None => Raise AttributeError
  end.

(** The concatenation of rendered children; [str.join] rejects an item
  that is not a [str]. *)
Fixpoint join_rendered (items : list pyval) : result (list string) :=
  match items with
  | [] => Ok []
  | item :: rest =>
      match py_data item with
      | PyStr s => result_bind (join_rendered rest) (λ l, Ok (s :: l))
      | _ => Raise TypeError
      end
  end.

Fixpoint result_map {A B} (f : A → result B) (l : list A) : result (list B) :=
  match l with
  | [] => Ok []
  | x :: l' =>
      result_bind (f x) (λ y, result_bind (result_map f l') (λ ys, Ok (y :: ys)))
  end.

(** The comprehension [f'{k}="{str(v)}"' for k, v in self._properties.items()]. *)
Definition html_attribute (kv : string * pyval) : string :=
  kv.1 +:+ "=" +:+ Str.dquote +:+ py_str kv.2 +:+ Str.dquote.

Section Render.

(** [_BuilderFactory.create_element(gui, self._ELEMENT_NAME, properties)]
  belongs to [_factory.py]; the methods below only take the two components
  of the pair it returns. *)
Context {Gui : Type}.
Variable create_element :
  Gui → option pyval → dict string pyval → string * string.
Variable gui : Gui.

(** [_Control._render], once the factory has answered. *)
Definition control_markup (el : string * string) : string :=
  if Str.contains ("<" +:+ el.2) el.1 && negb (Str.contains ("</" +:+ el.2) el.1)
  then "<div>" +:+ el.1 +:+ "</" +:+ el.2 +:+ "></div>"
  else "<div>" +:+ el.1 +:+ "</div>".

(** [_render] of the three classes, by the class of [self]; [fuel] bounds
  the depth of the recursion, as the interpreter does. *)
Fixpoint _render (fuel : nat) (h : list element) (self : nat) : result pyval :=
  match fuel with
  | 0 => Raise RecursionError
  | S fuel =>
      match h !! self with
      | None => Raise BadAddress
      | Some o =>
          (* _Block._render_children *)
          let _render_children :=
            match _children o with
            | None => Raise AttributeError
            | Some children =>
                result_bind (result_map (_render fuel h) children) (λ rendered,
                result_bind (join_rendered rendered) (λ parts,
                  Ok (Str.join Str.line_break parts)))
            end in
          match cls_base (el_class o) with
          | Block =>
              result_bind (get_properties o true) (λ properties,
              let el := create_element gui (element_name o) properties in
              result_bind _render_children (λ inner,
                Ok (new_str (el.1 +:+ inner +:+ "</" +:+ el.2 +:+ ">"))))
          | Control =>
              result_bind (get_properties o true) (λ properties,
              let el := create_element gui (element_name o) properties in
                Ok (new_str (control_markup el)))
          | Html =>
              match element_name o with
              | Some tag =>
                  if py_truthy tag then
                    match _properties o, _content o with
                    | Some properties, Some content =>
                        let attrs :=
                          match properties with
                          | [] => ""
                          | _ => " " +:+ Str.join " " (html_attribute <$> properties)
                          end in
                        result_bind _render_children (λ inner,
                          Ok (new_str ("<" +:+ py_str tag +:+ attrs +:+ ">"
                                       +:+ py_str content +:+ inner
                                       +:+ "</" +:+ py_str tag +:+ ">")))
                    | _, _ => Raise AttributeError
                    end
                  else text_node o
              | None => text_node o
              end
          end
      end
  end.

End Render.

(** ** Specification vocabulary *)

(** The child list after [add(elements)]: each element not yet present is
  appended. *)
Definition add_children (children elements : list nat) : list nat :=
  foldl (λ acc e, if bool_decide (e ∈ acc) then acc else acc ++ [e])
    children elements.

(** A construction request: a class called on arguments at a call site. *)
Record request := Request {
  req_cls : pyclass;
  req_args : list pyval;
  req_kwargs : dict string pyval;
  req_frame : FrameInfo
}.

(** The requests carried out one after the other, whether or not one of
  them raises: what each call returned, and the world left. *)
Fixpoint construct_each (reqs : list request) (w : world)
  : list (result nat) * world :=
  match reqs with
  | [] => ([], w)
  | r :: rest =>
      let rw := construct (req_cls r) (req_args r) (req_kwargs r) (req_frame r) w in
      let rest := construct_each rest rw.2 in
      (rw.1 :: rest.1, rest.2)
  end.

(** A computation relates every world to the world it leaves. *)
Definition preserves {A} (R : relation world) (m : M A) : Prop :=
  ∀ w, R w (m w).2.

(** What a method of [self] other than [add] may change: attributes of
  [self], its child list at most being reset to the empty list. *)
Definition within (self : nat) : relation world := λ w w',
  blocks w' = blocks w
  ∧ length (heap w') = length (heap w)
  ∧ (∀ a, a ≠ self → heap w' !! a = heap w !! a)
  ∧ (children_of w' self = children_of w self ∨ children_of w' self = []).

(** What leaves [_content] and the instance attribute [_ELEMENT_NAME] of
  [self] as they are. *)
Definition keeps_markup (self : nat) : relation world := λ w w',
  heap w' !! self ≫= _content = heap w !! self ≫= _content
  ∧ heap w' !! self ≫= _ELEMENT_NAME = heap w !! self ≫= _ELEMENT_NAME.

(** One turn of the loop of [_parse_properties], on a key that is present. *)
Definition parse_one (locals : dict string pyval)
  (code_arguments : code_arguments_t) (k : string) (v : pyval)
  (properties : dict string pyval) : dict string pyval :=
  dict_set
    (if bool_decide (k ≠ _parse_property_key k)
     then dict_del properties k else properties)
    (_parse_property_key k)
    (_parse_property locals (_parse_property_key k) v code_arguments).

(** The error of [html.__init__]. *)
Definition missing_tag : exn :=
  RuntimeError "Can't render html element. Missing html tag name.".

(** [closed], decided. *)
Definition closedb (w : world) : bool :=
  forallb (λ o, forallb (λ child, child <? length (heap w))
                  (default [] (_children o))) (heap w).

(** ** Sample values *)

(** Two factories: one returns an opening tag alone, one a closed element. *)
Definition input_factory (_ : unit) (_ : option pyval) (_ : dict string pyval)
  : string * string := ("<input value=3>", "input").

(** A control class with a default property, as the generated element
  classes are. *)
Definition button : pyclass := Class Control "button" "label".

(** The number 3, held by some variable of the caller. *)
Definition three : pyval := PyVal (Some 7) None (PyInt 3).

(** A class object. *)
Definition Button_class : pyval :=
  PyVal (Some 8) (Some "Button") (PyObject "<class 'Button'>").

(** The value of a literal written in the call. *)
Definition literal (d : pydata) : pyval := PyVal None None d.

(** A call site with the local variables [locals], whose source line is
  one call with the arguments [args] and [keywords]. *)
Definition call_site (locals : dict string pyval) (args : list ast_expr)
  (keywords : list ast_keyword) : FrameInfo :=
  Frame locals [Some [Call args keywords]].

(** The call site of a call with the one argument [label=x]. *)
Definition site_label_x (locals : dict string pyval) : FrameInfo :=
  call_site locals [] [Keyword (Some "label") (ast_Name "x")].

(** The call site of a call without arguments, no variable being visible. *)
Definition site_plain : FrameInfo := call_site [] [] [].

Definition empty_world : world := World [] [].

(** A part block, initialised, with no children. *)
Definition part : element :=
  Element _DefaultBlock (Some []) (Some []) (Some []) None None.



(** A button constructed without properties where [x], holding the number
  3, was visible. *)
Definition plain_button : element :=
  Element button (Some [("x", three)]) (Some []) None None None.

(** ** Vocabulary for the remaining methods *)

(** A stored value as normalisation leaves it: a string, a dictionary or
  an iterable. *)
Definition normalised (v : pyval) : Prop := is_str_dict_iterable v = true.

(** A property map as [_parse_properties] leaves it: every key is its own
  normal form and every value is normalised. *)
Definition settled (properties : dict string pyval) : Prop :=
  ∀ k v, dict_get properties k = Some v →
         _parse_property_key k = k ∧ normalised v.

(** An argument whose source text [__get_code_arguments] can take: a bare
  name or a literal. *)
Definition plain (e : ast_expr) : bool :=
  match e with
  | ast_Expression => false
  | _ => true
  end.

(** A call of which [__get_code_arguments] reads every argument it looks
  at: the first positional one when the class has a default property, and
  all the keywords. *)
Definition readable (default_property : string) (node : ast_Call) : bool :=
  match call_args node with
  | arg :: _ => bool_decide (default_property = "") || plain arg
  | [] => true
  end
  && forallb (λ kw, plain (kw_value kw)) (call_keywords node).

(** The order in which the initialisers assign the attributes, and which
  classes have which: [__locals] before [_properties], [_properties] before
  [_children] (containers only), [_children] before the tag and the tag
  before the content ([html] only); a tag that is not [None] is truthy. *)
Definition staged (o : element) : Prop :=
  (is_Some (_properties o) → is_Some (_Element__locals o))
  ∧ (is_Some (_children o) →
     is_Some (_properties o) ∧ cls_base (el_class o) ≠ Control)
  ∧ (is_Some (_ELEMENT_NAME o) →
     is_Some (_children o) ∧ cls_base (el_class o) = Html)
  ∧ (is_Some (_content o) → is_Some (_ELEMENT_NAME o))
  ∧ (∀ tag, _ELEMENT_NAME o = Some (Some tag) → py_truthy tag = true).

(** What the initialisers leave of a new object of class [cls]. *)
Definition built (cls : pyclass) (o : element) : Prop :=
  el_class o = cls ∧ staged o ∧ default [] (_children o) = [].

(** What a program does with elements. *)
Inductive action :=
| Construct (cls : pyclass) (args : list pyval) (kwargs : dict string pyval)
    (frame : FrameInfo)
| Enter (self : nat)
| Exit (self : nat)
| Add (self : nat) (elements : list nat)
| Update (self : nat) (args : list pyval) (kwargs : dict string pyval)
    (frame : FrameInfo).

(** The world an action leaves, whether it returns or raises. *)
Definition perform (a : action) (w : world) : world :=
  match a with
  | Construct cls args kwargs frame => (construct cls args kwargs frame w).2
  | Enter self => (__enter__ self w).2
  | Exit self => (__exit__ self w).2
  | Add self elements => (add self elements w).2
  | Update self args kwargs frame => (update self args kwargs frame w).2
  end.

(** The references that an action passes denote objects. *)
Definition refers (a : action) (w : world) : Prop :=
  match a with
  | Construct _ _ _ _ => True
  | Enter self | Exit self | Update self _ _ _ => self < length (heap w)
  | Add self elements =>
      self < length (heap w) ∧ Forall (λ e, e < length (heap w)) elements
  end.

(** The worlds that programs reach from the start of the process. *)
Inductive reachable : world → Prop :=
| reachable_start : reachable (World [] [])
| reachable_step (w : world) (a : action) :
    reachable w → refers a w → reachable (perform a w).

(** Every object on the stack of scopes is a container. *)
Definition scopes_are_containers (w : world) : Prop :=
  ∀ c, c ∈ blocks w →
       ∃ o, heap w !! c = Some o ∧ cls_base (el_class o) ≠ Control.

(** The invariants of reachable worlds. *)
Definition sound (w : world) : Prop :=
  closed w
  ∧ (∀ c, NoDup (children_of w c))
  ∧ scopes_are_containers w
  ∧ (∀ a o, heap w !! a = Some o → staged o).

(** An action that calls [add] directly. *)
Definition explicit_add (a : action) : bool :=
  match a with
  | Add _ _ => true
  | _ => false
  end.

(** The worlds that programs reach without calling [add] themselves: the
  elements are put together by constructions inside scopes alone. *)
Inductive assembled : world → Prop :=
| assembled_start : assembled (World [] [])
| assembled_step (w : world) (a : action) :
    assembled w → explicit_add a = false → refers a w →
    assembled (perform a w).

(** Every child is younger than its parent, and has one parent only. *)
Definition forest (w : world) : Prop :=
  (∀ c child, child ∈ children_of w c → c < child)
  ∧ (∀ c1 c2 child,
       child ∈ children_of w c1 → child ∈ children_of w c2 → c1 = c2).

(** An element whose [_render] renders its children: a block, or an [html]
  element with a tag; the attributes that [_render] reads before it comes to
  the children are assigned. *)
Definition renders_children (o : element) : Prop :=
  match cls_base (el_class o) with
  | Block => is_Some (_properties o)
  | Html =>
      is_Some (_properties o) ∧ is_Some (_content o)
      ∧ ∃ tag, element_name o = Some tag ∧ py_truthy tag = true
  | Control => False
  end.

(** The actions one after the other. *)
Definition run (actions : list action) (w : world) : world :=
  foldl (λ w a, perform a w) w actions.

(** [with part(): button()], then [button()] outside the scope. *)
Definition page : list action :=
  [Construct _DefaultBlock [] [] site_plain; Enter 0;
   Construct button [] [] site_plain; Exit 0;
   Construct button [] [] site_plain].



(** [with part(): html(None, 3)] *)
Definition number_page : list action :=
  [Construct _DefaultBlock [] [] site_plain; Enter 0;
   Construct html [literal PyNone; literal (PyInt 3)] []
     (call_site [] [ast_Literal PyNone; ast_Literal (PyInt 3)] [])].

(** * Properties *)

(** ** Strings *)

Lemma append_nil_l (s : string) : "" +:+ s = s.
Proof. reflexivity. Qed.

Lemma append_cons (c : ascii) (s t : string) :
  String c s +:+ t = String c (s +:+ t).
Proof. reflexivity. Qed.

Ltac str_simpl := rewrite ?append_cons, ?append_nil_l in *.

Lemma append_nil_r (s : string) : s +:+ "" = s.
Proof. induction s as [|c s IH]; str_simpl; [done | by f_equal]. Qed.

Lemma append_assoc (a b c : string) : (a +:+ b) +:+ c = a +:+ (b +:+ c).
Proof. induction a as [|x a IH]; str_simpl; [done | by f_equal]. Qed.

Lemma append_eq_nil (a b : string) : a +:+ b = "" → a = "" ∧ b = "".
Proof. destruct a; str_simpl; [done | discriminate]. Qed.



(** ** The indexed-property pattern *)

Lemma word_tail_all_word (k : string) :
  Str.all_word k = true → Re.word_tail k = Some k.
Proof.
  induction k as [|c k IH]; cbn; [done|].
  intros [Hc Hk]%andb_true_iff. by rewrite Hc, IH.
Qed.

Lemma word_tail_sound (s w : string) :
  Re.word_tail s = Some w →
  Str.all_word w = true ∧ (s = w ∨ s = w +:+ Str.line_break).
Proof.
  revert w. induction s as [|c s IH]; intros w; cbn.
  - intros [= <-]. auto.
  - destruct (Str.is_word c) eqn:Hc.
    + destruct (Re.word_tail s) as [t|]; cbn; [|done].
      intros [= <-]. destruct (IH t eq_refl) as [Ht Hs]. cbn. rewrite Hc, Ht.
      split; [done|]. str_simpl. destruct Hs as [-> | ->]; auto.
    + destruct (Str.is_newline c) eqn:Hn; cbn; [|done].
      case_bool_decide; [|done]. intros [= <-]. subst s.
      split; [done|]. right. apply Ascii.eqb_eq in Hn. by subst c.
Qed.


Lemma word_tail_bracket (y : string) : Re.word_tail (y +:+ "]") = None.
Proof.
  induction y as [|c y IH]; str_simpl; [done|].
  cbn. rewrite IH. destruct (Str.is_word c); [done|].
  case_bool_decide as E; [|by rewrite andb_false_r].
  by apply append_eq_nil in E as [_ ?].
Qed.

Lemma index_token_sound (s w : string) :
  Re.index_token s = Some w →
  w ≠ "" ∧ Str.all_word w = true ∧ (s = w ∨ s = w +:+ Str.line_break).
Proof.
  unfold Re.index_token. destruct (Re.word_tail s) as [[|c t]|] eqn:E; try done.
  intros [= <-]. split; [done|]. by apply word_tail_sound.
Qed.

Lemma index_token_word (k : string) :
  Str.all_word k = true → k ≠ "" → Re.index_token k = Some k.
Proof.
  intros Hk Hne. unfold Re.index_token. rewrite word_tail_all_word by done.
  by destruct k.
Qed.

Lemma after_delim_sound (s w : string) :
  Re.after_delim s = Some w →
  w ≠ "" ∧ Str.all_word w = true ∧ (s = "__" +:+ w ∨ s = "__" +:+ w +:+ Str.line_break).
Proof.
  destruct s as [|a [|b s]]; cbn; try done.
  destruct (Ascii.eqb a Str.underscore) eqn:Ha; cbn; [|done].
  destruct (Ascii.eqb b Str.underscore) eqn:Hb; cbn; [|done].
  apply Ascii.eqb_eq in Ha, Hb. subst a b.
  intros (? & ? & Hs)%index_token_sound. do 2 (split; [done|]).
  str_simpl. destruct Hs as [-> | ->]; auto.
Qed.

Lemma indexed_match_sound (key g1 g2 : string) :
  Re.indexed_match key = Some (g1, g2) →
  Str.no_newline g1 = true ∧ g2 ≠ "" ∧ Str.all_word g2 = true
  ∧ (key = g1 +:+ "__" +:+ g2 ∨ key = g1 +:+ "__" +:+ g2 +:+ Str.line_break).
Proof.
  revert g1. induction key as [|c key IH]; intros g1.
  - cbn. done.
  - cbn [Re.indexed_match].
    destruct (Re.after_delim (String c key)) as [w|] eqn:E.
    + intros [= <- <-]. apply after_delim_sound in E as (? & ? & ?). done.
    + destruct (Str.is_newline c) eqn:Hn; [done|].
      destruct (Re.indexed_match key) as [[h1 h2]|]; cbn; [|done].
      intros [= <- <-]. destruct (IH h1 eq_refl) as (? & ? & ? & Hk).
      cbn. rewrite Hn. cbn. do 3 (split; [done|]). str_simpl.
      destruct Hk as [-> | ->]; auto.
Qed.

Lemma after_delim_bracket (x : string) : Re.after_delim (x +:+ "]") = None.
Proof.
  destruct x as [|a [|b x]]; str_simpl; cbn; try done.
  - by rewrite andb_false_r.
  - destruct (_ && _); [|done]. unfold Re.index_token.
    by rewrite word_tail_bracket.
Qed.

Lemma indexed_match_bracket (x : string) : Re.indexed_match (x +:+ "]") = None.
Proof.
  induction x as [|c x IH].
  - done.
  - str_simpl. cbn [Re.indexed_match]. rewrite <- append_cons.
    rewrite after_delim_bracket, IH. by destruct (Str.is_newline c).
Qed.

Lemma parse_property_key_idempotent (key : string) :
  _parse_property_key (_parse_property_key key) = _parse_property_key key.
Proof.
  unfold _parse_property_key.
  destruct (Re.indexed_match key) as [[g1 g2]|] eqn:E.
  - rewrite <- !append_assoc. by rewrite indexed_match_bracket.
  - by rewrite E.
Qed.

Lemma after_delim_eq (a b : ascii) (s : string) :
  Re.after_delim (String a (String b s)) =
  if Ascii.eqb a Str.underscore && Ascii.eqb b Str.underscore
  then Re.index_token s else None.
Proof. reflexivity. Qed.

Lemma is_word_underscore : Str.is_word Str.underscore = true.
Proof. reflexivity. Qed.

Lemma delim_eq (s : string) :
  "__" +:+ s = String Str.underscore (String Str.underscore s).
Proof. reflexivity. Qed.


Lemma startswith_delim (a b : ascii) (s : string) :
  Str.startswith "__" (String a (String b s)) =
  Ascii.eqb Str.underscore a && Ascii.eqb Str.underscore b.
Proof. cbn. by rewrite andb_true_r. Qed.

Lemma indexed_match_simple (name k : string) :
  k ≠ "" → Str.all_word k = true → Str.no_newline name = true →
  Str.contains "__" (name +:+ "_") = false →
  Re.indexed_match (name +:+ "__" +:+ k) = Some (name, k).
Proof.
  intros Hne Hk. induction name as [|c name IH]; intros Hnl Hfree.
  - rewrite append_nil_l, delim_eq. cbn [Re.indexed_match].
    rewrite after_delim_eq, !Ascii.eqb_refl. cbn [andb].
    by rewrite index_token_word.
  - rewrite append_cons. cbn [Re.indexed_match].
    cbn [Str.no_newline] in Hnl. apply andb_true_iff in Hnl as [Hc Hnl].
    apply negb_true_iff in Hc.
    rewrite append_cons in Hfree.
    cbn [Str.contains] in Hfree. apply orb_false_iff in Hfree as [Hs Hfree].
    assert (Re.after_delim (String c (name +:+ "__" +:+ k)) = None) as ->.
    { destruct name as [|d name].
      - rewrite append_nil_l, delim_eq, after_delim_eq.
        change ("" +:+ "_") with (String Str.underscore "") in Hs.
        rewrite startswith_delim, Ascii.eqb_refl, andb_true_r in Hs.
        rewrite Ascii.eqb_sym in Hs. by rewrite Hs.
      - rewrite append_cons, after_delim_eq.
        rewrite append_cons, startswith_delim in Hs.
        rewrite (Ascii.eqb_sym c), (Ascii.eqb_sym d). by rewrite Hs. }
    rewrite Hc, IH; done.
Qed.

Lemma word_tail_final (w t : string) :
  Str.all_word w = true → t = "" ∨ t = Str.line_break → Re.word_tail (w +:+ t) = Some w.
Proof.
  intros Hw Ht. induction w as [|c w IH].
  - rewrite append_nil_l. by destruct Ht as [-> | ->].
  - cbn [Str.all_word] in Hw. apply andb_true_iff in Hw as [Hc Hw].
    rewrite append_cons. cbn [Re.word_tail]. by rewrite Hc, IH.
Qed.

Lemma indexed_match_complete (p w t : string) :
  Str.no_newline p = true → w ≠ "" → Str.all_word w = true →
  t = "" ∨ t = Str.line_break →
  ∃ g1 g2, Re.indexed_match (p +:+ "__" +:+ w +:+ t) = Some (g1, g2)
           ∧ String.length g1 ≤ String.length p.
Proof.
  intros Hp Hne Hw Ht. induction p as [|c p IH].
  - exists "", w. split; [|done].
    rewrite append_nil_l, delim_eq. cbn [Re.indexed_match].
    rewrite after_delim_eq, !Ascii.eqb_refl. cbn [andb].
    unfold Re.index_token. rewrite word_tail_final by done. by destruct w.
  - cbn [Str.no_newline] in Hp. apply andb_true_iff in Hp as [Hc Hp].
    apply negb_true_iff in Hc. rewrite append_cons. cbn [Re.indexed_match].
    destruct (Re.after_delim _) as [g2|].
    + exists "", g2. split; [done|]. cbn. lia.
    + rewrite Hc. destruct (IH Hp) as (g1 & g2 & -> & Hlen).
      exists (String c g1), g2. split; [done|]. cbn. lia.
Qed.

Lemma shortest_split_by_match (name k : string) :
  Re.indexed_match (name +:+ "__" +:+ k) = Some (name, k) →
  shortest_split name k.
Proof.
  intros E p w Hkey Hp Hne Hw.
  destruct (indexed_match_complete p w "" Hp Hne Hw) as (g1 & g2 & E' & Hlen);
    [by left|].
  rewrite append_nil_r, <- Hkey, E in E'. by injection E' as <- <-.
Qed.

Lemma indexed_match_indexed (key g1 g2 : string) :
  Re.indexed_match key = Some (g1, g2) → indexed key.
Proof.
  intros (Hg1 & Hne & Hw & Hkey)%indexed_match_sound.
  destruct Hkey as [-> | ->].
  - exists g1, g2, "". rewrite append_nil_r. auto 10.
  - exists g1, g2, Str.line_break. auto 10.
Qed.

Lemma not_indexed_by_match (key : string) :
  Re.indexed_match key = None ↔ ¬ indexed key.
Proof.
  split.
  - intros E (p & w & t & -> & Hp & Hne & Hw & Ht).
    destruct (indexed_match_complete p w t Hp Hne Hw Ht) as (? & ? & E' & _).
    congruence.
  - intros H. destruct (Re.indexed_match key) as [[g1 g2]|] eqn:E; [|done].
    destruct H. by eapply indexed_match_indexed.
Qed.

Lemma shortest_split_simple (name k : string) :
  k ≠ "" → Str.all_word k = true → Str.no_newline name = true →
  Str.contains "__" (name +:+ "_") = false → shortest_split name k.
Proof.
  intros. by apply shortest_split_by_match, indexed_match_simple.
Qed.




(** ** Value normalisation *)

Lemma binds_spec key value ca (name : string) (bound : pyval) :
  binds key value ca (name, bound) = true ↔
  py_is bound value = true ∧ source_text ca key = Some (Str.strip name).
Proof.
  unfold binds. cbn [fst snd]. rewrite andb_true_iff.
  destruct (source_text ca key) as [text|].
  - rewrite String.eqb_eq. split; intros [? E]; (split; [done|]); congruence.
  - split; intros [? ?]; done.
Qed.

(** C2.  A value that exposes [__name__] is normalised to the string form
  of that name, whatever the snapshot of local variables and the source text
  of the call say: the test comes first in [_parse_property], so a class
  held by a variable [x] and passed as [kind=x] becomes its name, not the
  binding expression for [x]. *)
Theorem parse_property_named (locals : dict string pyval) (key : string)
  (value : pyval) (code_arguments : code_arguments_t) (name : string) :
  py_name value = Some name →
  _parse_property locals key value code_arguments = new_str name.
Proof. intros H. unfold _parse_property. by rewrite H. Qed.

(** A class held by [x] and passed as [kind=x]. *)
Lemma parse_property_named_witness :
  let x := PyVal (Some 1) (Some "Button") (PyObject "<class 'Button'>") in
  _parse_property [("x", x)] "kind" x [(Some "kind", new_str "x")]
  = new_str "Button".
Proof. apply parse_property_named. reflexivity. Defined.

(** C1, as amended.  For a value without [__name__]: if some entry
  [(name, bound)] of the snapshot is the very object passed ([bound is value])
  and the source text recorded for the key, stripped, equals the stripped
  [name], the result is the string made of an opening brace, the name of
  such an entry and a closing brace; if no entry qualifies, the value is
  returned as it is when it is a string, a dictionary or an iterable, and
  as [str(value)] otherwise. *)
Theorem parse_property_binding (locals : dict string pyval) (key : string)
  (value : pyval) (code_arguments : code_arguments_t) :
  py_name value = None →
  ((∃ name bound, (name, bound) ∈ locals ∧ py_is bound value = true
      ∧ source_text code_arguments key = Some (Str.strip name)) →
   ∃ name bound, (name, bound) ∈ locals ∧ py_is bound value = true
      ∧ source_text code_arguments key = Some (Str.strip name)
      ∧ _parse_property locals key value code_arguments
        = new_str ("{" +:+ name +:+ "}"))
  ∧ ((∀ name bound, (name, bound) ∈ locals → py_is bound value = true →
        source_text code_arguments key ≠ Some (Str.strip name)) →
     _parse_property locals key value code_arguments
     = if is_str_dict_iterable value then value else new_str (py_str value)).
Proof.
  intros Hname. unfold _parse_property. rewrite Hname. split.
  - intros (name & bound & Hin & His & Htext).
    destruct (find (binds key value code_arguments) locals) as [[k v]|] eqn:E.
    + apply find_some in E as [Hin' Hb]. apply binds_spec in Hb as [? ?].
      exists k, v. by rewrite list_elem_of_In.
    + apply list_elem_of_In in Hin.
      eapply find_none in E; [|exact Hin].
      assert (binds key value code_arguments (name, bound) = true)
        by by apply binds_spec.
      congruence.
  - intros Hno.
    destruct (find (binds key value code_arguments) locals) as [[k v]|] eqn:E;
      [|done].
    apply find_some in E as [Hin Hb]. apply binds_spec in Hb as [? ?].
    apply list_elem_of_In in Hin. by destruct (Hno k v).
Qed.

(** The number held by [x] passed as [label=x], and the literal
  [label="hello"]. *)
Lemma parse_property_binding_witness :
  let V := PyVal (Some 1) None (PyInt 3) in
  (∃ name bound, (name, bound) ∈ [("x", V)] ∧ py_is bound V = true
      ∧ source_text [(Some "label", new_str "x")] "label" = Some (Str.strip name)
      ∧ _parse_property [("x", V)] "label" V [(Some "label", new_str "x")]
        = new_str ("{" +:+ name +:+ "}"))
  ∧ _parse_property [("x", V)] "label" (new_str "hello")
      [(Some "label", new_str "hello")] = new_str "hello".
Proof.
  intros V. split.
  - apply (proj1 (parse_property_binding [("x", V)] "label" V
                    [(Some "label", new_str "x")] eq_refl)).
    exists "x", V. split; [by left | split; reflexivity].
  - apply (proj2 (parse_property_binding [("x", V)] "label" (new_str "hello")
                    [(Some "label", new_str "hello")] eq_refl)).
    intros name bound _ Hb. unfold py_is in Hb.
    destruct (py_id bound); discriminate Hb.
Defined.

(** A class held by [x] and passed as [label=x]: the entry for [x] is the
  very object and the source text is [x], yet the result is the name of the
  class. *)
Lemma parse_property_name_precedes_binding :
  let V := PyVal (Some 1) (Some "Button") (PyObject "<class 'Button'>") in
  let locals := [("x", V)] in
  let code_arguments := [(Some "label", new_str "x")] in
  (("x", V) ∈ locals ∧ py_is V V = true
   ∧ source_text code_arguments "label" = Some (Str.strip "x"))
  ∧ _parse_property locals "label" V code_arguments = new_str "Button"
  ∧ _parse_property locals "label" V code_arguments ≠ new_str "{x}".
Proof.
  cbv zeta. split; [|split]; [split; [by left | split; reflexivity] | reflexivity | discriminate].
Qed.

(** ** Dictionaries *)

Section DictFacts.
Context {K V : Type} `{EqDecision K}.
Implicit Types (d : dict K V) (k : K) (v : V).

Lemma dict_get_set_eq d k v : dict_get (dict_set d k v) k = Some v.
Proof.
  induction d as [|[k' v'] d IH]; cbn.
  - by rewrite decide_True.
  - destruct (decide (k' = k)) as [->|Hne]; cbn.
    + by rewrite decide_True.
    + by rewrite decide_False.
Qed.

Lemma dict_get_set_ne d k k' v :
  k ≠ k' → dict_get (dict_set d k v) k' = dict_get d k'.
Proof.
  intros Hne. induction d as [|[k0 v0] d IH]; cbn.
  - by rewrite decide_False.
  - destruct (decide (k0 = k)) as [->|Hne0]; cbn.
    + by rewrite !decide_False.
    + by rewrite IH.
Qed.

Lemma dict_get_del_eq d k : dict_get (dict_del d k) k = None.
Proof.
  unfold dict_del. induction d as [|[k' v'] d IH]; [done|].
  rewrite filter_cons. cbn. destruct (decide (k' ≠ k)) as [Hne|Heq]; [|done].
  cbn. by rewrite decide_False.
Qed.

Lemma dict_get_del_ne d k k' :
  k ≠ k' → dict_get (dict_del d k) k' = dict_get d k'.
Proof.
  intros Hne. unfold dict_del. induction d as [|[k0 v0] d IH]; [done|].
  rewrite filter_cons. cbn. destruct (decide (k0 ≠ k)) as [Hne0|Heq]; cbn.
  - by rewrite IH.
  - apply dec_stable in Heq. subst k0. by rewrite decide_False.
Qed.

Lemma dict_get_keys d k : k ∈ dict_keys d ↔ is_Some (dict_get d k).
Proof.
  unfold dict_keys. induction d as [|[k' v'] d IH]; cbn.
  - rewrite elem_of_nil. split; [done | by intros [? ?]].
  - rewrite elem_of_cons. destruct (decide (k' = k)) as [->|Hne].
    + split; [by eexists | by left].
    + rewrite <- IH. split; [by intros [-> | ?] | by right].
Qed.

Lemma dict_keys_set d k v :
  dict_keys (dict_set d k v)
  = if bool_decide (k ∈ dict_keys d) then dict_keys d else dict_keys d ++ [k].
Proof.
  unfold dict_keys. induction d as [|[k' v'] d IH]; cbn.
  - rewrite bool_decide_eq_false_2; [done | apply not_elem_of_nil].
  - destruct (decide (k' = k)) as [->|Hne]; cbn.
    + rewrite bool_decide_eq_true_2; [done | by left].
    + rewrite IH. case_bool_decide as Hin.
      * rewrite bool_decide_eq_true_2; [done | by right].
      * rewrite bool_decide_eq_false_2; [done|].
        intros [-> | ?]%elem_of_cons; done.
Qed.

Lemma dict_keys_set_NoDup d k v :
  NoDup (dict_keys d) → NoDup (dict_keys (dict_set d k v)).
Proof.
  intros H. rewrite dict_keys_set. case_bool_decide as Hin; [done|].
  apply NoDup_app. split_and!; [done | | apply NoDup_singleton].
  intros x Hx ->%list_elem_of_singleton. done.
Qed.

Lemma dict_keys_update_NoDup d other :
  NoDup (dict_keys d) → NoDup (dict_keys (dict_update d other)).
Proof.
  unfold dict_update. revert d.
  induction other as [|[k v] other IH]; intros d H; [done|].
  cbn. by apply IH, dict_keys_set_NoDup.
Qed.

Lemma dict_get_update_other d other k :
  k ∉ dict_keys other → dict_get (dict_update d other) k = dict_get d k.
Proof.
  unfold dict_update, dict_keys. revert d.
  induction other as [|[k' v'] other IH]; intros d H; [done|].
  cbn in *. apply not_elem_of_cons in H as [Hne Hnin].
  rewrite IH by done. by apply dict_get_set_ne.
Qed.

Lemma dict_get_update d other k v :
  NoDup (dict_keys other) → (k, v) ∈ other →
  dict_get (dict_update d other) k = Some v.
Proof.
  unfold dict_update, dict_keys. revert d.
  induction other as [|[k' v'] other IH]; intros d Hnd Hin.
  - by apply elem_of_nil in Hin.
  - cbn in *. apply NoDup_cons in Hnd as [Hk' Hnd].
    apply elem_of_cons in Hin as [[= <- <-] | Hin].
    + fold (dict_update (dict_set d k v) other).
      rewrite dict_get_update_other by done. apply dict_get_set_eq.
    + by apply IH.
Qed.

End DictFacts.

(** ** _parse_properties *)

Section ParseProperties.
Context (locals : dict string pyval) (code_arguments : code_arguments_t).
#[local] Abbreviation parse_one := (parse_one locals code_arguments).

Lemma parse_properties_cons k rest properties v :
  dict_get properties k = Some v →
  _parse_properties locals code_arguments (k :: rest) properties
  = _parse_properties locals code_arguments rest (parse_one k v properties).
Proof. intros H. cbn [_parse_properties]. by rewrite H. Qed.

Lemma parse_one_other k v properties k' :
  k' ≠ k → k' ≠ _parse_property_key k →
  dict_get (parse_one k v properties) k' = dict_get properties k'.
Proof.
  intros H1 H2. unfold parse_one. rewrite dict_get_set_ne by done.
  case_bool_decide; [by rewrite dict_get_del_ne|done].
Qed.

Lemma parse_one_key k v properties :
  dict_get (parse_one k v properties) (_parse_property_key k)
  = Some (_parse_property locals (_parse_property_key k) v code_arguments).
Proof. unfold parse_one. apply dict_get_set_eq. Qed.

Lemma parse_one_raw k v properties :
  k ≠ _parse_property_key k → dict_get (parse_one k v properties) k = None.
Proof.
  intros H. unfold parse_one. rewrite dict_get_set_ne by done.
  rewrite bool_decide_eq_true_2 by done. apply dict_get_del_eq.
Qed.

(** Keys that are neither updated nor the normal form of an updated key
  keep their value. *)
Lemma parse_properties_other ks properties k' :
  k' ∉ ks → k' ∉ _parse_property_key <$> ks →
  dict_get (_parse_properties locals code_arguments ks properties).2 k'
  = dict_get properties k'.
Proof.
  revert properties. induction ks as [|k ks IH]; intros properties H1 H2; [done|].
  apply not_elem_of_cons in H1 as [? ?].
  rewrite fmap_cons in H2. apply not_elem_of_cons in H2 as [? ?].
  cbn [_parse_properties]. destruct (dict_get properties k) as [v|] eqn:E; [|done].
  fold (parse_one k v properties). rewrite IH by done.
  by apply parse_one_other.
Qed.

(** With distinct normal forms, every updated key is found, and ends up
  under its normal form with its value normalised. *)
Lemma parse_properties_updated ks properties :
  NoDup (_parse_property_key <$> ks) →
  (∀ k, k ∈ ks → is_Some (dict_get properties k)) →
  (_parse_properties locals code_arguments ks properties).1 = Ok ()
  ∧ ∀ k v, k ∈ ks → dict_get properties k = Some v →
      dict_get (_parse_properties locals code_arguments ks properties).2
        (_parse_property_key k)
      = Some (_parse_property locals (_parse_property_key k) v code_arguments)
      ∧ (k ≠ _parse_property_key k →
         dict_get (_parse_properties locals code_arguments ks properties).2 k
         = None).
Proof.
  revert properties. induction ks as [|k0 ks IH]; intros properties Hnd Hall.
  - split; [done|]. by intros k v ?%elem_of_nil.
  - rewrite fmap_cons in Hnd. apply NoDup_cons in Hnd as [Hk0 Hnd].
    destruct (Hall k0) as [v0 Hv0]; [by left|].
    rewrite (parse_properties_cons _ _ _ _ Hv0).
    assert (∀ k, k ∈ ks → k ≠ k0 ∧ k ≠ _parse_property_key k0) as Hfresh.
    { intros k Hk. split.
      - intros ->. apply Hk0. by apply list_elem_of_fmap_2.
      - intros Heq. apply Hk0.
        rewrite <- (parse_property_key_idempotent k0), <- Heq.
        by apply list_elem_of_fmap_2. }
    assert (∀ k, k ∈ ks → dict_get (parse_one k0 v0 properties) k
                          = dict_get properties k) as Hsame.
    { intros k [? ?]%Hfresh. by apply parse_one_other. }
    destruct (IH (parse_one k0 v0 properties) Hnd) as [Hok Hup].
    { intros k Hk. rewrite Hsame by done. apply Hall. by right. }
    split; [done|]. intros k v [-> | Hk]%elem_of_cons Hv.
    + assert (v = v0) as -> by congruence. split.
      * rewrite parse_properties_other; [apply parse_one_key| |done].
        intros Hin. apply Hk0.
        rewrite <- (parse_property_key_idempotent k0).
        by apply list_elem_of_fmap_2.
      * intros Hraw. rewrite parse_properties_other; [by apply parse_one_raw| |].
        -- intros Hin. apply Hk0. by apply list_elem_of_fmap_2.
        -- intros Hin. apply list_elem_of_fmap in Hin as (k' & Heq & Hk').
           apply Hraw. rewrite Heq. symmetry.
           apply parse_property_key_idempotent.
    + apply Hup; [done|]. by rewrite Hsame.
Qed.

End ParseProperties.

(** ** Computations *)

Lemma bind_run {A B} (m : M A) (f : A → M B) (w : world) :
  (m ≫= f) w = match m w with
               | (Ok a, w') => f a w'
               | (Raise e, w') => (Raise e, w')
               end.
Proof. reflexivity. Qed.

Lemma bind_ok {A B} (m : M A) (f : A → M B) (w w' : world) (a : A) :
  m w = (Ok a, w') → (m ≫= f) w = f a w'.
Proof. intros H. by rewrite bind_run, H. Qed.

Lemma bind_raise {A B} (m : M A) (f : A → M B) (w w' : world) (e : exn) :
  m w = (Raise e, w') → (m ≫= f) w = (Raise e, w').
Proof. intros H. by rewrite bind_run, H. Qed.

Lemma deref_ok (w : world) (self : nat) (o : element) :
  heap w !! self = Some o → deref self w = (Ok o, w).
Proof. intros H. unfold deref. by rewrite H. Qed.

Lemma getattr_ok {A} (field : element → option A) (w : world) (self : nat)
  (o : element) (x : A) :
  heap w !! self = Some o → field o = Some x → getattr field self w = (Ok x, w).
Proof.
  intros H Hx. unfold getattr. rewrite (bind_ok _ _ _ _ _ (deref_ok _ _ _ H)).
  by rewrite Hx.
Qed.

Lemma setattr_ok (f : element → element) (w : world) (self : nat) (o : element) :
  heap w !! self = Some o →
  setattr f self w = (Ok (), World (<[self := f o]> (heap w)) (blocks w)).
Proof.
  intros H. unfold setattr. by rewrite (bind_ok _ _ _ _ _ (deref_ok _ _ _ H)).
Qed.

Lemma setattr_world (f : element → element) (w : world) (self : nat) :
  (setattr f self w).2
  = match heap w !! self with
    | Some o => World (<[self := f o]> (heap w)) (blocks w)
    | None => w
    end.
Proof.
  unfold setattr. rewrite bind_run. unfold deref.
  by destruct (heap w !! self).
Qed.

Section Preserves.
Context (R : relation world) `{!Reflexive R, !Transitive R}.

Lemma preserves_ret {A} (a : A) : preserves R (mret a : M A).
Proof. intros w. reflexivity. Qed.

Lemma preserves_raise {A} (e : exn) : preserves R (raise e : M A).
Proof. intros w. reflexivity. Qed.

Lemma preserves_lift {A} (r : result A) : preserves R (lift r).
Proof. intros w. reflexivity. Qed.

Lemma preserves_deref (self : nat) : preserves R (deref self).
Proof. intros w. unfold deref. destruct (heap w !! self); reflexivity. Qed.

Lemma preserves_bind {A B} (m : M A) (f : A → M B) :
  preserves R m → (∀ a, preserves R (f a)) → preserves R (m ≫= f).
Proof.
  intros Hm Hf w. rewrite bind_run. specialize (Hm w).
  destruct (m w) as [[a|e] w']; cbn [snd] in *; [|done].
  etrans; [exact Hm | apply Hf].
Qed.

Lemma preserves_getattr {A} (field : element → option A) (self : nat) :
  preserves R (getattr field self).
Proof.
  apply preserves_bind; [apply preserves_deref|].
  intros o. destruct (field o); [apply preserves_ret | apply preserves_raise].
Qed.

Lemma preserves_setattr (f : element → element) (self : nat) :
  (∀ w o, heap w !! self = Some o →
          R w (World (<[self := f o]> (heap w)) (blocks w))) →
  preserves R (setattr f self).
Proof.
  intros H w. rewrite setattr_world.
  destruct (heap w !! self) eqn:E; [by apply H | reflexivity].
Qed.

Lemma preserves_for_each {A} (l : list A) (body : A → M unit) :
  (∀ x, preserves R (body x)) → preserves R (for_each l body).
Proof.
  intros H. induction l as [|x l IH]; [apply preserves_ret|].
  apply preserves_bind; [apply H | by intros _].
Qed.

End Preserves.

#[local] Instance within_refl self : Reflexive (within self).
Proof. intros w. unfold within. auto. Qed.

#[local] Instance within_trans self : Transitive (within self).
Proof.
  intros w1 w2 w3 (Hb1 & Hl1 & Ho1 & Hc1) (Hb2 & Hl2 & Ho2 & Hc2).
  unfold within. split_and!; [congruence | congruence | |].
  - intros a Ha. rewrite Ho2, Ho1; done.
  - destruct Hc2 as [-> | ->]; auto.
Qed.

#[local] Instance keeps_markup_refl self : Reflexive (keeps_markup self).
Proof. intros w. by split. Qed.

#[local] Instance keeps_markup_trans self : Transitive (keeps_markup self).
Proof. intros w1 w2 w3 [? ?] [? ?]. split; congruence. Qed.

Lemma children_of_insert (w : world) (self : nat) (o o' : element) bl :
  heap w !! self = Some o →
  children_of (World (<[self := o']> (heap w)) bl) self = default [] (_children o').
Proof.
  intros H. unfold children_of. cbn [heap].
  by rewrite list_lookup_insert_eq by by eapply lookup_lt_Some.
Qed.

Lemma within_setattr (f : element → element) (self : nat) :
  (∀ o, _children (f o) = _children o ∨ _children (f o) = Some []) →
  preserves (within self) (setattr f self).
Proof.
  intros Hf. apply preserves_setattr; [apply _|]. intros w o Ho.
  unfold within. cbn [heap blocks]. split_and!.
  - done.
  - by rewrite length_insert.
  - intros a Ha. by rewrite list_lookup_insert_ne.
  - erewrite children_of_insert by done. unfold children_of. rewrite Ho. cbn.
    destruct (Hf o) as [-> | ->]; auto.
Qed.

Lemma keeps_markup_setattr (f : element → element) (self : nat) :
  (∀ o, _content (f o) = _content o ∧ _ELEMENT_NAME (f o) = _ELEMENT_NAME o) →
  preserves (keeps_markup self) (setattr f self).
Proof.
  intros Hf. apply preserves_setattr; [apply _|]. intros w o Ho.
  unfold keeps_markup. cbn [heap].
  rewrite list_lookup_insert_eq by by eapply lookup_lt_Some.
  rewrite Ho. cbn. destruct (Hf o) as [-> ->]. done.
Qed.

Ltac preserves_step :=
  first
    [ solve [apply preserves_ret; apply _]
    | solve [apply preserves_raise; apply _]
    | solve [apply preserves_lift; apply _]
    | solve [apply preserves_deref; apply _]
    | solve [apply preserves_getattr; apply _]
    | solve [apply within_setattr; intros []; cbn; auto]
    | solve [apply keeps_markup_setattr; intros []; cbn; auto]
    | apply preserves_bind; try apply _; [ | intros ?] ].

Lemma within_Element_init self args kwargs frame :
  preserves (within self) (_Element__init__ self args kwargs frame).
Proof.
  unfold _Element__init__. repeat preserves_step.
  destruct args; [|case_bool_decide]; repeat preserves_step.
Qed.

Lemma keeps_markup_Element_init self args kwargs frame :
  preserves (keeps_markup self) (_Element__init__ self args kwargs frame).
Proof.
  unfold _Element__init__. repeat preserves_step.
  destruct args; [|case_bool_decide]; repeat preserves_step.
Qed.

Lemma within_Block_init self args kwargs frame :
  preserves (within self) (_Block__init__ self args kwargs frame).
Proof.
  unfold _Block__init__. preserves_step; [apply within_Element_init|].
  preserves_step.
Qed.

Lemma keeps_markup_Block_init self args kwargs frame :
  preserves (keeps_markup self) (_Block__init__ self args kwargs frame).
Proof.
  unfold _Block__init__. preserves_step; [apply keeps_markup_Element_init|].
  preserves_step.
Qed.

Lemma within_html_init self args kwargs frame :
  preserves (within self) (html__init__ self args kwargs frame).
Proof.
  unfold html__init__. preserves_step; [apply within_Block_init|].
  destruct args; repeat preserves_step.
Qed.

Lemma within_init cls self args kwargs frame :
  preserves (within self) (__init__ cls self args kwargs frame).
Proof.
  unfold __init__. destruct (cls_base cls).
  - apply within_Block_init.
  - apply within_html_init.
  - apply within_Element_init.
Qed.

(** ** add *)

Lemma set_children_id (o : element) (ch : list nat) :
  _children o = Some ch → set_children ch o = o.
Proof. destruct o. cbn. by intros ->. Qed.

Lemma set_children_twice (o : element) (ch ch' : list nat) :
  set_children ch' (set_children ch o) = set_children ch' o.
Proof. by destruct o. Qed.

Lemma world_eta (w : world) : World (heap w) (blocks w) = w.
Proof. by destruct w. Qed.

Lemma add_run (w : world) (c : nat) (o : element) (ch es : list nat) :
  heap w !! c = Some o → _children o = Some ch →
  add c es w
  = (Ok c, World (<[c := set_children (add_children ch es) o]> (heap w)) (blocks w)).
Proof.
  unfold add. intros Ho Hch.
  assert (for_each es (λ element,
            children ← getattr _children c;
            if bool_decide (element ∈ children) then ret ()
            else setattr (set_children (children ++ [element])) c) w
          = (Ok (), World (<[c := set_children (add_children ch es) o]> (heap w))
                      (blocks w))) as H.
  { revert w o ch Ho Hch. induction es as [|e es IH]; intros w o ch Ho Hch.
    - cbn. rewrite set_children_id, list_insert_id, world_eta; done.
    - cbn [for_each]. rewrite bind_run, bind_run.
      rewrite (getattr_ok _ _ _ _ _ Ho Hch).
      unfold add_children. cbn [foldl]. fold (add_children).
      case_bool_decide as He.
      + cbn. by apply IH.
      + rewrite (setattr_ok _ _ _ _ Ho).
        erewrite IH; cycle 1.
        * cbn [heap]. apply list_lookup_insert_eq. by eapply lookup_lt_Some.
        * reflexivity.
        * cbn [heap blocks].
          by rewrite list_insert_insert_eq, set_children_twice. }
  by rewrite bind_run, H.
Qed.

Lemma add_children_app (ch es1 es2 : list nat) :
  add_children ch (es1 ++ es2) = add_children (add_children ch es1) es2.
Proof. unfold add_children. by rewrite foldl_app. Qed.

Lemma add_children_cons (ch : list nat) (e : nat) (es : list nat) :
  add_children ch (e :: es)
  = add_children (if bool_decide (e ∈ ch) then ch else ch ++ [e]) es.
Proof. reflexivity. Qed.

(** The old children stay in front; what follows is the given elements
  that were absent, each once. *)
Lemma add_children_spec (ch es : list nat) :
  ∃ news, add_children ch es = ch ++ news
          ∧ (∀ e, e ∈ news ↔ e ∈ es ∧ e ∉ ch) ∧ NoDup news.
Proof.
  revert ch. induction es as [|e es IH]; intros ch.
  - exists []. rewrite app_nil_r. split_and!; [done| |constructor].
    intros e. split; [by intros ?%elem_of_nil | by intros [?%elem_of_nil _]].
  - rewrite add_children_cons. case_bool_decide as He.
    + destruct (IH ch) as (news & -> & Hn & Hd). exists news.
      split_and!; [done| |done]. intros x. rewrite Hn, elem_of_cons.
      split; [intros [? ?]; auto | intros [[-> | ?] ?]; done].
    + destruct (IH (ch ++ [e])) as (news & -> & Hn & Hd). exists (e :: news).
      rewrite <- app_assoc. split_and!; [done| |].
      * intros x. rewrite !elem_of_cons, Hn, elem_of_app, list_elem_of_singleton.
        split.
        -- intros [-> | [? ?]]; [auto|]. split; [auto|]. intros ?. auto.
        -- intros [[-> | ?] ?]; [auto|].
           destruct (decide (x = e)) as [-> | ?]; [auto|]. right.
           split; [done|]. intros [? | ?]; done.
      * constructor; [|done]. rewrite Hn, elem_of_app, list_elem_of_singleton.
        intros [_ []]. auto.
Qed.

Lemma add_children_present (ch es : list nat) :
  es ⊆ ch → add_children ch es = ch.
Proof.
  induction es as [|e es IH]; intros H; [done|].
  rewrite add_children_cons. rewrite bool_decide_eq_true_2.
  - apply IH. intros x Hx. apply H. by right.
  - apply H. by left.
Qed.

Lemma add_children_pair (a b : nat) : a ≠ b → add_children [] [a; b] = [a; b].
Proof.
  intros H. unfold add_children. cbn.
  rewrite bool_decide_eq_false_2; [done|].
  by intros ?%list_elem_of_singleton.
Qed.

Lemma elem_of_add_children (ch es : list nat) (e : nat) :
  e ∈ add_children ch es ↔ e ∈ ch ∨ e ∈ es.
Proof.
  destruct (add_children_spec ch es) as (news & -> & Hn & _).
  rewrite elem_of_app, Hn. destruct (decide (e ∈ ch)); tauto.
Qed.

Lemma children_of_lookup (w : world) (self : nat) (o : element) :
  heap w !! self = Some o → children_of w self = default [] (_children o).
Proof. intros H. unfold children_of. by rewrite H. Qed.

(** C8.  On a container with child list [ch], [add] returns the container
  itself, keeps [ch] in front and appends after it, once each, exactly the
  given elements that were absent; adding again any of the same elements
  changes nothing.  On an empty container, [add(a, b)] followed by [add(a)]
  for distinct [a] and [b] leaves the child list [a; b]. *)
Theorem add_appends_once (w : world) (c : nat) (o : element)
  (ch elements : list nat) :
  heap w !! c = Some o → _children o = Some ch →
  ∃ w1, add c elements w = (Ok c, w1)
    ∧ blocks w1 = blocks w
    ∧ (∃ news, children_of w1 c = ch ++ news
         ∧ (∀ e, e ∈ news ↔ e ∈ elements ∧ e ∉ ch) ∧ NoDup news)
    ∧ (∀ again, again ⊆ elements → add c again w1 = (Ok c, w1))
    ∧ (∀ a b, ch = [] → elements = [a; b] → a ≠ b →
         children_of w1 c = [a; b]
         ∧ ∃ w2, add c [a] w1 = (Ok c, w2) ∧ children_of w2 c = [a; b]).
Proof.
  intros Ho Hch. pose proof (lookup_lt_Some _ _ _ Ho) as Hlt.
  eexists. split; [by apply add_run|].
  set (w1 := World _ _).
  assert (heap w1 !! c = Some (set_children (add_children ch elements) o)) as Ho1
    by by apply list_lookup_insert_eq.
  assert (children_of w1 c = add_children ch elements) as Hc1
    by by rewrite (children_of_lookup _ _ _ Ho1); destruct o.
  assert (∀ again, again ⊆ elements → add c again w1 = (Ok c, w1)) as Hagain.
  { intros again Hsub. erewrite add_run; [|exact Ho1|by destruct o].
    rewrite add_children_present.
    - by rewrite set_children_twice, list_insert_id, world_eta.
    - intros e He. apply elem_of_add_children. right. by apply Hsub. }
  split_and!; [done| |done|].
  - rewrite Hc1. apply add_children_spec.
  - intros a b -> -> Hab. rewrite Hc1, add_children_pair by done.
    split; [done|]. exists w1. split.
    + apply Hagain. intros x ->%list_elem_of_singleton. by left.
    + by rewrite Hc1, add_children_pair.
Qed.

(** [add(1, 2)] then [add(1)] on an empty part block. *)
Lemma add_appends_once_witness :
  let c := Element _DefaultBlock (Some []) (Some []) (Some []) None None in
  let w := World [c; blank html; blank html] [] in
  ∃ w1, add 0 [1; 2] w = (Ok 0, w1) ∧ children_of w1 0 = [1; 2]
    ∧ ∃ w2, add 0 [1] w1 = (Ok 0, w2) ∧ children_of w2 0 = [1; 2].
Proof.
  intros c w.
  destruct (add_appends_once w 0 c [] [1; 2] eq_refl eq_refl)
    as (w1 & Hrun & _ & _ & _ & Hpair).
  exists w1. split; [exact Hrun|].
  apply (Hpair 1 2 eq_refl eq_refl). lia.
Defined.

(** ** __new__ *)

Lemma new_top (w : world) (cls : pyclass) (c : nat) (o : element) (ch : list nat) :
  head (blocks w) = Some c → heap w !! c = Some o → _children o = Some ch →
  __new__ cls w
  = (Ok (length (heap w)),
     World (<[c := set_children (add_children ch [length (heap w)]) o]>
              (heap w ++ [blank cls])) (blocks w)).
Proof.
  intros Htop Ho Hch. unfold __new__. rewrite bind_run. cbn [allocate].
  rewrite bind_run. unfold peek at 1. cbn [blocks]. rewrite Htop.
  rewrite bind_run. erewrite add_run; [done| |done].
  cbn [heap]. by apply lookup_app_l_Some.
Qed.

Lemma new_bottom (w : world) (cls : pyclass) :
  head (blocks w) = None →
  __new__ cls w = (Ok (length (heap w)), World (heap w ++ [blank cls]) (blocks w)).
Proof.
  intros Htop. unfold __new__. rewrite bind_run. cbn [allocate].
  rewrite bind_run. unfold peek at 1. cbn [blocks]. by rewrite Htop.
Qed.

Lemma getattr_fail {A} (field : element → option A) (w : world) (self : nat) :
  heap w !! self ≫= field = None → ∃ e, getattr field self w = (Raise e, w).
Proof.
  intros H. unfold getattr. rewrite bind_run. unfold deref.
  destruct (heap w !! self) as [o|]; [|by eexists].
  cbn in H. rewrite H. by eexists.
Qed.

Lemma add_fail (w : world) (c e : nat) (es : list nat) :
  heap w !! c ≫= _children = None → ∃ err, add c (e :: es) w = (Raise err, w).
Proof.
  intros [err H]%getattr_fail. exists err. unfold add. cbn [for_each].
  rewrite !bind_run. by rewrite H.
Qed.

Lemma new_orphan (w : world) (cls : pyclass) (c : nat) :
  head (blocks w) = Some c → heap w !! c ≫= _children = None →
  ∃ e, __new__ cls w = (Raise e, World (heap w ++ [blank cls]) (blocks w)).
Proof.
  intros Htop Hno. unfold __new__. rewrite bind_run. cbn [allocate].
  rewrite bind_run. unfold peek at 1. cbn [blocks]. rewrite Htop.
  rewrite bind_run.
  destruct (add_fail (World (heap w ++ [blank cls]) (blocks w)) c
              (length (heap w)) []) as [err ->]; [|by eexists].
  cbn [heap]. destruct (heap w !! c) as [o|] eqn:Ho.
  - by rewrite (lookup_app_l_Some _ _ _ _ Ho).
  - apply lookup_ge_None in Ho.
    destruct (decide (c = length (heap w))) as [->|Hne].
    + by rewrite list_lookup_middle.
    + rewrite lookup_ge_None_2; [done|]. rewrite length_app. cbn. lia.
Qed.

(** ** construct *)

Lemma construct_run cls args kwargs frame (w : world) :
  construct cls args kwargs frame w
  = match __new__ cls w with
    | (Ok obj, w1) =>
        match __init__ cls obj args kwargs frame w1 with
        | (Ok _, w2) => (Ok obj, w2)
        | (Raise e, w2) => (Raise e, w2)
        end
    | (Raise e, w1) => (Raise e, w1)
    end.
Proof.
  unfold construct. rewrite bind_run. destruct (__new__ cls w) as [[obj|e] w1]; [|done].
  rewrite bind_run. by destruct (__init__ cls obj args kwargs frame w1) as [[[]|e] w2].
Qed.

(** The three ways [__new__] can go. *)
Lemma new_cases (w : world) (cls : pyclass) :
  ((head (blocks w) = None
    ∨ ∃ c, head (blocks w) = Some c ∧ heap w !! c ≫= _children = None)
   ∧ (__new__ cls w).2 = World (heap w ++ [blank cls]) (blocks w)
   ∧ ∀ a, (__new__ cls w).1 = Ok a → a = length (heap w))
  ∨ ∃ c o ch, head (blocks w) = Some c ∧ heap w !! c = Some o
      ∧ _children o = Some ch
      ∧ __new__ cls w
        = (Ok (length (heap w)),
           World (<[c := set_children (add_children ch [length (heap w)]) o]>
                    (heap w ++ [blank cls])) (blocks w)).
Proof.
  destruct (head (blocks w)) as [c|] eqn:Htop.
  - destruct (heap w !! c ≫= _children) as [ch|] eqn:Hch.
    + right. destruct (heap w !! c) as [o|] eqn:Ho; [|done]. cbn in Hch.
      exists c, o, ch. split_and!; try done. by apply new_top.
    + left. destruct (new_orphan w cls c Htop Hch) as [e ->].
      split_and!; [right; eauto | done | done].
  - left. rewrite new_bottom by done. split_and!; [by left | done |].
    by intros a [= <-].
Qed.

Lemma new_address (w : world) (cls : pyclass) (a : nat) :
  (__new__ cls w).1 = Ok a → a = length (heap w).
Proof.
  destruct (new_cases w cls) as [(_ & _ & H) | (c & o & ch & _ & _ & _ & ->)];
    [apply H | by intros [= <-]].
Qed.

Lemma construct_address cls args kwargs frame (w : world) (a : nat) :
  (construct cls args kwargs frame w).1 = Ok a → a = length (heap w).
Proof.
  rewrite construct_run. pose proof (new_address w cls) as H.
  destruct (__new__ cls w) as [[obj|e] w1]; [|done].
  destruct (__init__ cls obj args kwargs frame w1) as [[[]|e] w2]; [|done].
  cbn. intros [= <-]. by apply H.
Qed.

Lemma construct_within cls args kwargs frame (w : world) :
  within (length (heap w)) (__new__ cls w).2 (construct cls args kwargs frame w).2.
Proof.
  rewrite construct_run. pose proof (new_address w cls) as H.
  destruct (__new__ cls w) as [[obj|e] w1]; [|reflexivity].
  rewrite (H obj eq_refl). cbn [snd].
  pose proof (within_init cls (length (heap w)) args kwargs frame w1) as Hw.
  by destruct (__init__ cls _ args kwargs frame w1) as [[[]|e] w2].
Qed.

Lemma new_shape (w : world) (cls : pyclass) :
  blocks (__new__ cls w).2 = blocks w
  ∧ length (heap (__new__ cls w).2) = S (length (heap w)).
Proof.
  destruct (new_cases w cls) as [(_ & -> & _) | (c & o & ch & _ & _ & _ & ->)];
    cbn; rewrite ?length_insert, length_app; cbn; split; (done || lia).
Qed.

Lemma construct_shape cls args kwargs frame (w : world) :
  blocks (construct cls args kwargs frame w).2 = blocks w
  ∧ length (heap (construct cls args kwargs frame w).2) = S (length (heap w)).
Proof.
  destruct (construct_within cls args kwargs frame w) as (Hb & Hl & _).
  destruct (new_shape w cls) as [Hb' Hl']. split; congruence.
Qed.

Lemma children_of_ge (w : world) (a : nat) :
  length (heap w) ≤ a → children_of w a = [].
Proof. intros H. unfold children_of. by rewrite lookup_ge_None_2. Qed.

Lemma closed_within (w1 w2 : world) (self : nat) :
  closed w1 → within self w1 w2 → closed w2.
Proof.
  intros Hc (_ & Hl & Ho & Hs) a child. rewrite Hl.
  destruct (decide (a = self)) as [->|Ha].
  - destruct Hs as [-> | ->]; [apply Hc | by intros ?%elem_of_nil].
  - unfold children_of. rewrite (Ho a Ha). apply Hc.
Qed.

Lemma closed_new (w : world) (cls : pyclass) : closed w → closed (__new__ cls w).2.
Proof.
  intros Hc a child.
  destruct (new_cases w cls) as [(_ & -> & _) | (c & o & ch & _ & Ho & Hch & ->)];
    cbn [snd heap]; rewrite ?length_insert, length_app; cbn [length].
  - unfold children_of. cbn [heap].
    destruct (decide (a < length (heap w))) as [Hlt|Hge].
    + rewrite lookup_app_l by done. intros H%Hc. lia.
    + destruct (decide (a = length (heap w))) as [->|Hne].
      * rewrite list_lookup_middle by done. by intros ?%elem_of_nil.
      * rewrite lookup_ge_None_2; [by intros ?%elem_of_nil|].
        rewrite length_app. cbn. lia.
  - pose proof (lookup_lt_Some _ _ _ Ho) as Hlt.
    unfold children_of. cbn [heap].
    destruct (decide (a = c)) as [->|Hne].
    + rewrite list_lookup_insert_eq by (rewrite length_app; lia).
      replace (default [] (_children (set_children (add_children ch [length (heap w)]) o)))
        with (add_children ch [length (heap w)]) by by destruct o.
      intros [H | ->%list_elem_of_singleton]%elem_of_add_children; [|lia].
      specialize (Hc c child). rewrite (children_of_lookup _ _ _ Ho) in Hc.
      cbn in Hc. rewrite Hch in Hc. specialize (Hc H). lia.
    + rewrite list_lookup_insert_ne by done.
      destruct (decide (a < length (heap w))) as [Hlt'|Hge].
      * rewrite lookup_app_l by done. intros H%Hc. lia.
      * destruct (decide (a = length (heap w))) as [->|Hne'].
        -- rewrite list_lookup_middle by done. by intros ?%elem_of_nil.
        -- rewrite lookup_ge_None_2; [by intros ?%elem_of_nil|].
           rewrite length_app. cbn. lia.
Qed.

Lemma closed_construct cls args kwargs frame (w : world) :
  closed w → closed (construct cls args kwargs frame w).2.
Proof.
  intros Hc. eapply closed_within; [by apply closed_new | apply construct_within].
Qed.

(** A construction under an open container appends the new address to its
  child list, whatever the initialiser does. *)
Lemma construct_inside cls args kwargs frame (w : world) (c : nat)
  (o : element) (ch : list nat) :
  head (blocks w) = Some c → heap w !! c = Some o → _children o = Some ch →
  closed w →
  heap (construct cls args kwargs frame w).2 !! c
  = Some (set_children (ch ++ [length (heap w)]) o).
Proof.
  intros Htop Ho Hch Hc. pose proof (lookup_lt_Some _ _ _ Ho) as Hlt.
  destruct (construct_within cls args kwargs frame w) as (_ & _ & Hoth & _).
  rewrite Hoth by lia. rewrite (new_top w cls c o ch) by done. cbn [snd heap].
  rewrite list_lookup_insert_eq by (rewrite length_app; lia).
  unfold add_children. cbn. rewrite bool_decide_eq_false_2; [done|].
  intros H. specialize (Hc c (length (heap w))).
  rewrite (children_of_lookup _ _ _ Ho), Hch in Hc. specialize (Hc H). lia.
Qed.

(** A construction while another container, or none, is topmost leaves
  the object alone. *)
Lemma construct_outside cls args kwargs frame (w : world) (c : nat) :
  head (blocks w) ≠ Some c → c < length (heap w) →
  heap (construct cls args kwargs frame w).2 !! c = heap w !! c.
Proof.
  intros Htop Hlt.
  destruct (construct_within cls args kwargs frame w) as (_ & _ & Hoth & _).
  rewrite Hoth by lia.
  destruct (new_cases w cls) as [(_ & -> & _) | (c' & o & ch & Htop' & _ & _ & ->)];
    cbn [snd heap].
  - by rewrite lookup_app_l.
  - rewrite list_lookup_insert_ne by congruence. by rewrite lookup_app_l.
Qed.

(** ** Scopes *)

Lemma construct_each_shape (reqs : list request) (w : world) :
  blocks (construct_each reqs w).2 = blocks w
  ∧ length (heap (construct_each reqs w).2) = length (heap w) + length reqs
  ∧ (closed w → closed (construct_each reqs w).2)
  ∧ ∀ i a, (construct_each reqs w).1 !! i = Some (Ok a) →
           a = length (heap w) + i ∧ i < length reqs.
Proof.
  revert w. induction reqs as [|r reqs IH]; intros w.
  - cbn. split_and!; [done | lia | done | done].
  - cbn [construct_each snd fst length].
    set (w' := (construct _ _ _ _ w).2).
    destruct (IH w') as (Hb & Hl & Hc & Hi).
    destruct (construct_shape (req_cls r) (req_args r) (req_kwargs r)
                (req_frame r) w) as [Hb' Hl'].
    fold w' in Hb', Hl'. split_and!.
    + congruence.
    + lia.
    + intros H. by apply Hc, closed_construct.
    + intros [|i] a; cbn.
      * intros [= H]. apply construct_address in H. lia.
      * intros H. apply Hi in H. lia.
Qed.

Lemma construct_each_inside (reqs : list request) (w : world) (c : nat)
  (o : element) (ch : list nat) :
  head (blocks w) = Some c → heap w !! c = Some o → _children o = Some ch →
  closed w →
  heap (construct_each reqs w).2 !! c
  = Some (set_children (ch ++ seq (length (heap w)) (length reqs)) o).
Proof.
  revert w o ch. induction reqs as [|r reqs IH]; intros w o ch Htop Ho Hch Hc.
  - cbn. by rewrite app_nil_r, set_children_id.
  - cbn [construct_each snd length seq].
    set (w' := (construct _ _ _ _ w).2).
    destruct (construct_shape (req_cls r) (req_args r) (req_kwargs r)
                (req_frame r) w) as [Hb' Hl'].
    fold w' in Hb', Hl'.
    erewrite IH; cycle 1.
    + by rewrite Hb'.
    + by apply construct_inside.
    + by destruct o.
    + by apply closed_construct.
    + rewrite set_children_twice, Hl', <- app_assoc. done.
Qed.

Lemma construct_each_outside (reqs : list request) (w : world) (c : nat) :
  head (blocks w) ≠ Some c → c < length (heap w) →
  heap (construct_each reqs w).2 !! c = heap w !! c.
Proof.
  revert w. induction reqs as [|r reqs IH]; intros w Htop Hlt; [done|].
  cbn [construct_each snd].
  set (w' := (construct _ _ _ _ w).2).
  destruct (construct_shape (req_cls r) (req_args r) (req_kwargs r)
              (req_frame r) w) as [Hb' Hl'].
  fold w' in Hb', Hl'.
  rewrite IH; [by apply construct_outside | by rewrite Hb' | lia].
Qed.

Lemma enter_run (w : world) (c : nat) (o : element) :
  heap w !! c = Some o → cls_base (el_class o) ≠ Control →
  __enter__ c w = (Ok c, World (heap w) (c :: blocks w)).
Proof.
  intros Ho Hb. unfold __enter__.
  rewrite (bind_ok _ _ _ _ _ (deref_ok _ _ _ Ho)).
  by destruct (cls_base (el_class o)).
Qed.

Lemma exit_run (w : world) (c top : nat) (o : element) (rest : list nat) :
  heap w !! c = Some o → cls_base (el_class o) ≠ Control →
  blocks w = top :: rest →
  __exit__ c w = (Ok (), World (heap w) rest).
Proof.
  intros Ho Hb Hbl. unfold __exit__.
  rewrite (bind_ok _ _ _ _ _ (deref_ok _ _ _ Ho)).
  destruct (cls_base (el_class o)); [| |done];
    rewrite bind_run; unfold pop; by rewrite Hbl.
Qed.

(** C4.  For a container [c] that is not already the topmost scope:
  entering [c] puts it on top of the stack; after any series of
  constructions, exiting leaves the stack as it was before the scope began;
  every element constructed in between is a child of [c]; no element
  constructed after the exit is; and the child list of [c] is the former one
  followed by the addresses of the objects allocated inside the scope. *)
Theorem scope_balance (w : world) (c : nat) (o : element) (ch : list nat)
  (inside after : list request) :
  heap w !! c = Some o → cls_base (el_class o) ≠ Control →
  _children o = Some ch → closed w → head (blocks w) ≠ Some c →
  ∃ w1 w3,
    __enter__ c w = (Ok c, w1) ∧ head (blocks w1) = Some c
    ∧ __exit__ c (construct_each inside w1).2 = (Ok (), w3)
    ∧ blocks w3 = blocks w
    ∧ (∀ a, Ok a ∈ (construct_each inside w1).1 → a ∈ children_of w3 c)
    ∧ (∀ a, Ok a ∈ (construct_each after w3).1 →
            a ∉ children_of (construct_each after w3).2 c)
    ∧ children_of (construct_each after w3).2 c
      = ch ++ seq (length (heap w)) (length inside).
Proof.
  intros Ho Hbase Hch Hc Htop. pose proof (lookup_lt_Some _ _ _ Ho) as Hlt.
  set (w1 := World (heap w) (c :: blocks w)).
  assert (closed w1) as Hc1 by done.
  destruct (construct_each_shape inside w1) as (Hb2 & Hl2 & Hc2 & Hi2).
  pose proof (construct_each_inside inside w1 c o ch eq_refl Ho Hch Hc1) as Ho2.
  set (w2 := (construct_each inside w1).2) in *.
  set (w3 := World (heap w2) (blocks w)).
  destruct (construct_each_shape after w3) as (Hb4 & Hl4 & Hc4 & Hi4).
  assert (heap (construct_each after w3).2 !! c = heap w2 !! c) as Ho4.
  { apply (construct_each_outside after w3 c); [done|].
    cbn [heap w3]. rewrite Hl2. cbn. lia. }
  assert (children_of w3 c = ch ++ seq (length (heap w)) (length inside)) as Hch3.
  { rewrite (children_of_lookup w3 c _ Ho2). by destruct o. }
  assert (children_of (construct_each after w3).2 c
          = ch ++ seq (length (heap w)) (length inside)) as Hch4.
  { unfold children_of. rewrite Ho4. exact Hch3. }
  exists w1, w3. split_and!.
  - by eapply enter_run.
  - done.
  - eapply exit_run; [exact Ho2 | by destruct o | exact Hb2].
  - done.
  - intros a [i Hi]%list_elem_of_lookup. apply Hi2 in Hi as [-> Hi].
    rewrite Hch3. apply elem_of_app. right. apply elem_of_seq. cbn. lia.
  - intros a [i Hi]%list_elem_of_lookup. apply Hi4 in Hi as [-> _].
    rewrite Hch4. cbn [heap w3]. rewrite Hl2. cbn [heap w1].
    intros [H | H%elem_of_seq]%elem_of_app; [|lia].
    specialize (Hc c _ ltac:(by rewrite (children_of_lookup _ _ _ Ho), Hch)).
    lia.
  - done.
Qed.

Lemma lift_run {A} (r : result A) (w : world) : lift r w = (r, w).
Proof. reflexivity. Qed.

Lemma lookup_stored (w : world) (self : nat) (o o' : element) :
  heap w !! self = Some o →
  heap (World (<[self := o']> (heap w)) (blocks w)) !! self = Some o'.
Proof.
  intros H. cbn [heap]. apply list_lookup_insert_eq. by eapply lookup_lt_Some.
Qed.

Lemma store_twice (w : world) (self : nat) (o1 o2 : element) :
  World (<[self := o2]> (heap (World (<[self := o1]> (heap w)) (blocks w))))
    (blocks (World (<[self := o1]> (heap w)) (blocks w)))
  = World (<[self := o2]> (heap w)) (blocks w).
Proof. cbn [heap blocks]. by rewrite list_insert_insert_eq. Qed.

Lemma set_properties_twice (o : element) (p p' : dict string pyval) :
  set_properties p' (set_properties p o) = set_properties p' o.
Proof. by destruct o. Qed.

(** What [update] leaves, when the call site parses. *)
Lemma update_run (w : world) (self : nat) (o : element)
  (properties locals : dict string pyval) (args : list pyval)
  (kwargs : dict string pyval) (frame : FrameInfo)
  (code_arguments : code_arguments_t) :
  heap w !! self = Some o → _properties o = Some properties →
  _Element__locals o = Some locals →
  __get_code_arguments (cls_DEFAULT_PROPERTY (el_class o)) frame
  = Ok code_arguments →
  let kwargs' := match args with
                 | arg0 :: _ => dict_set kwargs (cls_DEFAULT_PROPERTY (el_class o)) arg0
                 | [] => kwargs
                 end in
  let r := _parse_properties locals code_arguments (dict_keys kwargs')
             (dict_update properties kwargs') in
  update self args kwargs frame w
  = (r.1, World (<[self := set_properties r.2 o]> (heap w)) (blocks w)).
Proof.
  intros Ho Hp Hl Hca kwargs' r. unfold update.
  rewrite (bind_ok _ _ _ _ _ (deref_ok _ _ _ Ho)). cbv zeta. fold kwargs'.
  rewrite (bind_ok _ _ _ _ _ (getattr_ok _ _ _ _ _ Ho Hp)).
  rewrite (bind_ok _ _ _ _ _ (setattr_ok _ _ _ _ Ho)).
  rewrite Hca, (bind_ok _ _ _ _ _ (lift_run _ _)).
  pose proof (lookup_stored w self o
    (set_properties (dict_update properties kwargs') o) Ho) as Ho'.
  rewrite (bind_ok _ _ _ _ _ (getattr_ok _properties _ _ _ _ Ho' ltac:(by destruct o))).
  rewrite (bind_ok _ _ _ _ _ (getattr_ok _Element__locals _ _ _ _ Ho'
             ltac:(by destruct o; cbn in *))).
  fold r. rewrite (bind_ok _ _ _ _ _ (setattr_ok _ _ _ _ Ho')).
  by rewrite store_twice, set_properties_twice.
Qed.

(** What [_Element.__init__] leaves, when the call site parses. *)
Lemma Element_init_run (w : world) (self : nat) (o : element)
  (args : list pyval) (kwargs : dict string pyval) (frame : FrameInfo)
  (code_arguments : code_arguments_t) :
  heap w !! self = Some o →
  __get_code_arguments (cls_DEFAULT_PROPERTY (el_class o)) frame
  = Ok code_arguments →
  let locals := filter (λ kv, Str.startswith "_" kv.1 = false) (f_locals frame) in
  let seed := match args with
              | arg0 :: _ =>
                  if bool_decide (cls_DEFAULT_PROPERTY (el_class o) ≠ "")
                  then [(cls_DEFAULT_PROPERTY (el_class o), arg0)] else []
              | [] => []
              end in
  let properties := dict_update seed kwargs in
  let r := _parse_properties locals code_arguments (dict_keys properties)
             properties in
  _Element__init__ self args kwargs frame w
  = (r.1, World (<[self := set_properties r.2 (set_locals locals o)]> (heap w))
            (blocks w)).
Proof.
  intros Ho Hca locals seed properties r. unfold _Element__init__.
  rewrite (bind_ok _ _ _ _ _ (deref_ok _ _ _ Ho)). cbv zeta. fold locals.
  rewrite (bind_ok _ _ _ _ _ (setattr_ok _ _ _ _ Ho)).
  pose proof (lookup_stored w self o (set_locals locals o) Ho) as Ho1.
  rewrite (bind_ok _ _ _ _ _ (setattr_ok _ _ _ _ Ho1)). rewrite store_twice.
  pose proof (lookup_stored w self o
    (set_properties [] (set_locals locals o)) Ho) as Ho2.
  assert (∃ o3, heap (World (<[self := o3]> (heap w)) (blocks w)) !! self = Some o3
                ∧ o3 = set_properties seed (set_locals locals o)
                ∧ (match args with
                   | [] => ret ()
                   | arg0 :: _ =>
                       if bool_decide (cls_DEFAULT_PROPERTY (el_class o) ≠ "")
                       then setattr (set_properties
                              [(cls_DEFAULT_PROPERTY (el_class o), arg0)]) self
                       else ret ()
                   end) (World (<[self := set_properties [] (set_locals locals o)]>
                                  (heap w)) (blocks w))
                  = (Ok (), World (<[self := o3]> (heap w)) (blocks w)))
    as (o3 & Ho3 & -> & Hseed).
  { eexists. split; [by eapply lookup_stored|]. split; [reflexivity|].
    subst seed. destruct args as [|arg0 args]; [done|].
    case_bool_decide; [|done].
    rewrite (setattr_ok _ _ _ _ Ho2), store_twice.
    by rewrite set_properties_twice. }
  rewrite (bind_ok _ _ _ _ _ Hseed).
  rewrite (bind_ok _ _ _ _ _ (getattr_ok _properties _ _ _ _ Ho3 ltac:(by destruct o))).
  rewrite (bind_ok _ _ _ _ _ (setattr_ok _ _ _ _ Ho3)). rewrite store_twice.
  rewrite set_properties_twice. fold properties.
  rewrite Hca, (bind_ok _ _ _ _ _ (lift_run _ _)).
  pose proof (lookup_stored w self o
    (set_properties properties (set_locals locals o)) Ho) as Ho4.
  rewrite (bind_ok _ _ _ _ _ (getattr_ok _properties _ _ _ _ Ho4 ltac:(by destruct o))).
  rewrite (bind_ok _ _ _ _ _ (getattr_ok _Element__locals _ _ _ _ Ho4
             ltac:(by destruct o))).
  fold r. rewrite (bind_ok _ _ _ _ _ (setattr_ok _ _ _ _ Ho4)).
  by rewrite store_twice, set_properties_twice.
Qed.

(** [self._properties[k]] never raises when the keys are those of the
  dictionary, or keys just merged into it. *)
Lemma parse_properties_ok locals code_arguments ks properties :
  NoDup ks → (∀ k, k ∈ ks → is_Some (dict_get properties k)) →
  (_parse_properties locals code_arguments ks properties).1 = Ok ().
Proof.
  revert properties. induction ks as [|k0 ks IH]; intros properties Hnd Hall.
  - done.
  - apply NoDup_cons in Hnd as [Hk0 Hnd].
    destruct (Hall k0) as [v0 Hv0]; [by left|].
    rewrite (parse_properties_cons _ _ _ _ _ _ Hv0). apply IH; [done|].
    intros k Hk. destruct (decide (k = _parse_property_key k0)) as [->|Hne].
    + rewrite parse_one_key. by eexists.
    + rewrite parse_one_other; [apply Hall; by right | | done].
      intros ->. done.
Qed.

Lemma parse_properties_own_keys locals code_arguments properties :
  NoDup (dict_keys properties) →
  (_parse_properties locals code_arguments (dict_keys properties) properties).1
  = Ok ().
Proof.
  intros H. apply parse_properties_ok; [done|]. intros k. apply dict_get_keys.
Qed.

Lemma seed_NoDup (default_property : string) (args : list pyval)
  (kwargs : dict string pyval) :
  NoDup (dict_keys (dict_update
    (match args with
     | arg0 :: _ =>
         if bool_decide (default_property ≠ "")
         then [(default_property, arg0)] else []
     | [] => []
     end) kwargs)).
Proof.
  apply dict_keys_update_NoDup. destruct args; [constructor|].
  case_bool_decide; [apply NoDup_singleton | constructor].
Qed.

(** When the call site parses, [_Element.__init__] returns. *)
Lemma Element_init_ok (w : world) (self : nat) (o : element)
  (args : list pyval) (kwargs : dict string pyval) (frame : FrameInfo)
  (code_arguments : code_arguments_t) :
  heap w !! self = Some o →
  __get_code_arguments (cls_DEFAULT_PROPERTY (el_class o)) frame
  = Ok code_arguments →
  ∃ properties,
    _Element__init__ self args kwargs frame w
    = (Ok (), World (<[self := set_properties properties
                        (set_locals (filter (λ kv, Str.startswith "_" kv.1 = false)
                                       (f_locals frame)) o)]> (heap w))
                (blocks w)).
Proof.
  intros Ho Hca. rewrite (Element_init_run w self o args kwargs frame _ Ho Hca).
  cbv zeta. rewrite parse_properties_own_keys by apply seed_NoDup. by eexists.
Qed.

Lemma Block_init_ok (w : world) (self : nat) (o : element)
  (args : list pyval) (kwargs : dict string pyval) (frame : FrameInfo)
  (code_arguments : code_arguments_t) :
  heap w !! self = Some o →
  __get_code_arguments (cls_DEFAULT_PROPERTY (el_class o)) frame
  = Ok code_arguments →
  ∃ properties,
    _Block__init__ self args kwargs frame w
    = (Ok (), World (<[self := set_children [] (set_properties properties
                        (set_locals (filter (λ kv, Str.startswith "_" kv.1 = false)
                                       (f_locals frame)) o))]> (heap w))
                (blocks w)).
Proof.
  intros Ho Hca.
  destruct (Element_init_ok w self o args kwargs frame _ Ho Hca) as [p Hp].
  exists p. unfold _Block__init__. rewrite (bind_ok _ _ _ _ _ Hp).
  erewrite setattr_ok by by eapply lookup_stored. by rewrite store_twice.
Qed.

Lemma new_object (w : world) (cls : pyclass) :
  heap (__new__ cls w).2 !! length (heap w) = Some (blank cls).
Proof.
  destruct (new_cases w cls) as [(_ & -> & _) | (c & o & ch & _ & Ho & _ & ->)];
    cbn [snd heap].
  - by apply list_lookup_middle.
  - apply lookup_lt_Some in Ho. rewrite list_lookup_insert_ne by lia.
    by apply list_lookup_middle.
Qed.

(** C9.  Calling [html] without positional argument never returns an
  element: the call raises, and when allocation and the base initialisers
  succeed the exception is the [RuntimeError] of the missing tag name.  With
  a first argument that is empty or [None] (falsy) the call returns the new
  element, whose tag is [None] and whose content is the second argument, or
  the empty string. *)
Theorem html_requires_tag (w : world) (kwargs : dict string pyval)
  (frame : FrameInfo) :
  (∃ e w', construct html [] kwargs frame w = (Raise e, w'))
  ∧ (∀ code_arguments,
       __get_code_arguments "" frame = Ok code_arguments →
       (__new__ html w).1 = Ok (length (heap w)) →
       (construct html [] kwargs frame w).1 = Raise missing_tag)
  ∧ (∀ code_arguments arg0 rest,
       __get_code_arguments "" frame = Ok code_arguments →
       (__new__ html w).1 = Ok (length (heap w)) →
       py_truthy arg0 = false →
       ∃ w' o, construct html (arg0 :: rest) kwargs frame w
               = (Ok (length (heap w)), w')
         ∧ heap w' !! length (heap w) = Some o
         ∧ _ELEMENT_NAME o = Some None
         ∧ _content o = Some (match rest with
                              | arg1 :: _ => arg1
                              | [] => new_str ""
                              end)).
Proof.
  split_and!.
  - rewrite construct_run. destruct (__new__ html w) as [[obj|e] w1]; [|by eexists _, _].
    change (__init__ html) with html__init__. unfold html__init__.
    rewrite bind_run.
    destruct (_Block__init__ obj [] kwargs frame w1) as [[[]|e] w2]; by eexists _, _.
  - intros ca Hca Hnew. rewrite construct_run.
    pose proof (new_object w html) as Hobj.
    destruct (__new__ html w) as [[obj|e] w1]; [|done].
    cbn in Hnew, Hobj. injection Hnew as ->.
    change (__init__ html) with html__init__. unfold html__init__.
    destruct (Block_init_ok w1 _ _ [] kwargs frame ca Hobj Hca) as [p Hp].
    by rewrite (bind_ok _ _ _ _ _ Hp).
  - intros ca arg0 rest Hca Hnew Hfalsy. rewrite construct_run.
    pose proof (new_object w html) as Hobj.
    destruct (__new__ html w) as [[obj|e] w1]; [|done].
    cbn in Hnew, Hobj. injection Hnew as ->.
    change (__init__ html) with html__init__. unfold html__init__.
    destruct (Block_init_ok w1 _ _ (arg0 :: rest) kwargs frame ca Hobj Hca)
      as [p Hp].
    rewrite (bind_ok _ _ _ _ _ Hp), Hfalsy.
    set (o1 := set_children [] _).
    pose proof (lookup_stored w1 _ _ o1 Hobj) as Ho1.
    rewrite (bind_ok _ _ _ _ _ (setattr_ok _ _ _ _ Ho1)), store_twice.
    pose proof (lookup_stored w1 _ _ (set_ELEMENT_NAME None o1) Hobj) as Ho2.
    rewrite (setattr_ok _ _ _ _ Ho2), store_twice.
    eexists _, _. split; [reflexivity|].
    split; [by eapply lookup_stored|]. done.
Qed.

(** C10.  While a container [parent] is topmost, [__new__] appends the new
  object, still without any attribute, to the children of [parent]; so the
  child list is extended whatever the initialiser does afterwards, and
  [html()] without a tag raises and leaves behind a child of [parent] that
  has neither [_content] nor its own [_ELEMENT_NAME]. *)
Theorem failed_construction_stays_registered (w : world) (parent : nat)
  (o : element) (ch : list nat) (kwargs : dict string pyval) (frame : FrameInfo) :
  head (blocks w) = Some parent → heap w !! parent = Some o →
  _children o = Some ch → closed w →
  (∀ cls, ∃ w1, __new__ cls w = (Ok (length (heap w)), w1)
       ∧ children_of w1 parent = ch ++ [length (heap w)]
       ∧ heap w1 !! length (heap w) = Some (blank cls))
  ∧ (∀ cls args kwargs frame,
       children_of (construct cls args kwargs frame w).2 parent
       = ch ++ [length (heap w)])
  ∧ ∃ e w' o',
      construct html [] kwargs frame w = (Raise e, w')
      ∧ children_of w' parent = ch ++ [length (heap w)]
      ∧ heap w' !! length (heap w) = Some o'
      ∧ _content o' = None ∧ _ELEMENT_NAME o' = None.
Proof.
  intros Htop Ho Hch Hc. pose proof (lookup_lt_Some _ _ _ Ho) as Hlt.
  assert (∀ cls args kwargs frame,
            children_of (construct cls args kwargs frame w).2 parent
            = ch ++ [length (heap w)]) as Hreg.
  { intros cls args kw fr. unfold children_of.
    rewrite (construct_inside cls args kw fr w parent o ch) by done.
    by destruct o. }
  split_and!; [|done|].
  - intros cls. eexists. split; [by apply new_top|].
    pose proof (new_object w cls) as Hobj.
    pose proof (Hreg cls [] [] (Frame [] [None])) as Hr.
    rewrite (new_top w cls parent o ch) in Hobj by done. cbn [snd] in Hobj.
    split; [|done]. unfold children_of. cbn [heap].
    rewrite list_lookup_insert_eq by (rewrite length_app; lia).
    replace (Some _ ≫= _children)
      with (Some (add_children ch [length (heap w)])) by by destruct o.
    unfold add_children. cbn. rewrite bool_decide_eq_false_2; [done|].
    intros H. specialize (Hc parent (length (heap w))).
    rewrite (children_of_lookup _ _ _ Ho), Hch in Hc. specialize (Hc H). lia.
  - specialize (Hreg html [] kwargs frame).
    pose proof (new_object w html) as Hobj.
    rewrite construct_run in Hreg |- *.
    rewrite (new_top w html parent o ch) in Hobj, Hreg |- * by done.
    cbn [snd] in Hobj. set (w1 := World _ _) in *.
    change (__init__ html) with html__init__ in *. unfold html__init__ in *.
    rewrite bind_run in Hreg |- *.
    pose proof (keeps_markup_Block_init (length (heap w)) [] kwargs frame w1)
      as [Hcontent Hname].
    pose proof (within_Block_init (length (heap w)) [] kwargs frame w1)
      as (_ & Hlen & _).
    destruct (_Block__init__ (length (heap w)) [] kwargs frame w1)
      as [[[]|e] w2]; cbn [snd] in *.
    + destruct (heap w2 !! length (heap w)) as [o'|] eqn:Ho'.
      * rewrite Hobj in Hcontent, Hname. eexists _, w2, o'. done.
      * apply lookup_ge_None in Ho'. apply lookup_lt_Some in Hobj. lia.
    + destruct (heap w2 !! length (heap w)) as [o'|] eqn:Ho'.
      * rewrite Hobj in Hcontent, Hname. eexists _, w2, o'. done.
      * apply lookup_ge_None in Ho'. apply lookup_lt_Some in Hobj. lia.
Qed.

Lemma get_code_arguments_context (default_property : string)
  (frame frame' : FrameInfo) :
  code_context frame' = code_context frame →
  __get_code_arguments default_property frame'
  = __get_code_arguments default_property frame.
Proof. intros H. unfold __get_code_arguments. by rewrite H. Qed.


(** ** Rendering *)

Section RenderFacts.
Context {Gui : Type}.
Variable create_element :
  Gui → option pyval → dict string pyval → string * string.
Variable gui : Gui.




End RenderFacts.


(** ** Instances *)

Lemma closedb_closed (w : world) : closedb w = true → closed w.
Proof.
  unfold closedb, closed, children_of. intros H self child.
  destruct (heap w !! self) as [o|] eqn:Ho; [|by intros ?%elem_of_nil].
  cbn. rewrite forallb_forall in H.
  specialize (H o ltac:(by apply list_elem_of_In, list_elem_of_lookup; eauto)).
  rewrite forallb_forall in H. intros Hc%list_elem_of_In.
  apply H in Hc. by apply Nat.ltb_lt.
Qed.

(** A part block entered, two [html] calls inside (one without tag), the
  block exited, a button constructed afterwards. *)
Lemma scope_balance_witness :
  let w := World [part] [] in
  let inside :=
    [Request html [literal (PyStr "b"); literal (PyStr "bold")] []
       (call_site [] [ast_Literal (PyStr "b"); ast_Literal (PyStr "bold")] []);
     Request html [] [] site_plain] in
  let after :=
    [Request button [literal (PyInt 3)] []
       (call_site [] [ast_Literal (PyInt 3)] [])] in
  ∃ w1 w3,
    __enter__ 0 w = (Ok 0, w1) ∧ head (blocks w1) = Some 0
    ∧ __exit__ 0 (construct_each inside w1).2 = (Ok (), w3)
    ∧ blocks w3 = blocks w
    ∧ (∀ a, Ok a ∈ (construct_each inside w1).1 → a ∈ children_of w3 0)
    ∧ (∀ a, Ok a ∈ (construct_each after w3).1 →
            a ∉ children_of (construct_each after w3).2 0)
    ∧ children_of (construct_each after w3).2 0 = [1; 2].
Proof.
  intros w inside after.
  apply (scope_balance w 0 part [] inside after).
  - reflexivity.
  - discriminate.
  - reflexivity.
  - apply closedb_closed. reflexivity.
  - discriminate.
Defined.

(** [html()] and [html("", "text")] at top level. *)
Lemma html_requires_tag_witness :
  (construct html [] [] site_plain empty_world).1 = Raise missing_tag
  ∧ ∃ w' o, construct html [literal (PyStr ""); literal (PyStr "text")] []
              (call_site [] [ast_Literal (PyStr ""); ast_Literal (PyStr "text")] [])
              empty_world
            = (Ok 0, w')
      ∧ heap w' !! 0 = Some o ∧ _ELEMENT_NAME o = Some None
      ∧ _content o = Some (new_str "text").
Proof.
  split.
  - apply (proj1 (proj2 (html_requires_tag empty_world [] site_plain))
             [] eq_refl eq_refl).
  - apply (proj2 (proj2 (html_requires_tag empty_world []
                           (call_site [] [ast_Literal (PyStr "");
                                          ast_Literal (PyStr "text")] [])))
             [] (literal (PyStr "")) [literal (PyStr "text")]
             eq_refl eq_refl eq_refl).
Defined.

(** [html()] while a part block is open. *)
Lemma failed_construction_stays_registered_witness :
  let w := World [part] [0] in
  ∃ e w' o', construct html [] [] site_plain w = (Raise e, w')
    ∧ children_of w' 0 = [1]
    ∧ heap w' !! 1 = Some o' ∧ _content o' = None ∧ _ELEMENT_NAME o' = None.
Proof.
  intros w.
  apply (failed_construction_stays_registered w 0 part [] [] site_plain
           eq_refl eq_refl eq_refl).
  apply closedb_closed. reflexivity.
Defined.




(** ** Construction at a call site, end to end *)

(** The properties of the object that a construction left at [a]. *)
Lemma construct_properties (cls : pyclass) (args : list pyval)
  (kwargs : dict string pyval) (frame : FrameInfo) (w : world)
  (code_arguments : code_arguments_t) :
  cls_base cls = Control → head (blocks w) = None →
  __get_code_arguments (cls_DEFAULT_PROPERTY cls) frame = Ok code_arguments →
  let locals := filter (λ kv, Str.startswith "_" kv.1 = false) (f_locals frame) in
  let seed := match args with
              | arg0 :: _ =>
                  if bool_decide (cls_DEFAULT_PROPERTY cls ≠ "")
                  then [(cls_DEFAULT_PROPERTY cls, arg0)] else []
              | [] => []
              end in
  let properties := dict_update seed kwargs in
  ∃ w', construct cls args kwargs frame w = (Ok (length (heap w)), w')
    ∧ heap w' !! length (heap w) ≫= _properties
      = Some (_parse_properties locals code_arguments (dict_keys properties)
                properties).2.
Proof.
  intros Hbase Htop Hca locals seed properties.
  rewrite construct_run, (new_bottom w cls Htop).
  unfold __init__. rewrite Hbase. unfold _Control__init__.
  set (w1 := World _ _).
  assert (heap w1 !! length (heap w) = Some (blank cls)) as Hobj
    by by apply list_lookup_middle.
  rewrite (Element_init_run w1 _ _ args kwargs frame code_arguments Hobj Hca).
  cbv zeta. fold locals seed properties.
  rewrite parse_properties_own_keys by apply seed_NoDup.
  eexists. split; [reflexivity|]. cbn [heap].
  rewrite list_lookup_insert_eq; [done|]. by eapply lookup_lt_Some.
Qed.

Lemma parse_properties_single locals code_arguments (k : string) (v : pyval) :
  _parse_property_key k = k →
  (_parse_properties locals code_arguments [k] [(k, v)]).2
  = [(k, _parse_property locals k v code_arguments)].
Proof.
  intros Hk. cbn [_parse_properties dict_get]. rewrite decide_True by done.
  rewrite Hk, bool_decide_eq_false_2 by (by intros H). cbn [dict_set snd].
  by rewrite decide_True.
Qed.

Lemma parse_property_variable (key name : string) (i : nat) (data : pydata)
  (code_arguments : code_arguments_t) :
  source_text code_arguments key = Some (Str.strip name) →
  let V := PyVal (Some i) None data in
  _parse_property [(name, V)] key V code_arguments
  = new_str ("{" +:+ name +:+ "}").
Proof.
  intros Htext V. unfold _parse_property. cbn [py_name V find].
  unfold binds, py_is. cbn [fst snd py_id V].
  by rewrite Htext, Nat.eqb_refl, String.eqb_refl.
Qed.

(** [label=x], with [x] holding an object without [__name__]: the property
  is the binding expression for [x], in every world and for every control
  class. *)
Lemma construct_binds_variable (cls : pyclass) (w : world) (i : nat)
  (data : pydata) :
  cls_base cls = Control → head (blocks w) = None →
  let V := PyVal (Some i) None data in
  ∃ w', construct cls [] [("label", V)] (site_label_x [("x", V)]) w
        = (Ok (length (heap w)), w')
    ∧ heap w' !! length (heap w) ≫= _properties = Some [("label", new_str "{x}")].
Proof.
  intros Hbase Htop V.
  destruct (construct_properties cls [] [("label", V)] (site_label_x [("x", V)]) w
              [(Some "label", new_str "x")] Hbase Htop) as (w' & Hrun & Hp).
  { reflexivity. }
  exists w'. split; [done|]. rewrite Hp.
  change (dict_update [] [("label", V)]) with [("label", V)].
  change (dict_keys [("label", V)]) with ["label"].
  rewrite parse_properties_single by reflexivity.
  change (filter _ (f_locals (site_label_x [("x", V)]))) with [("x", V)].
  by rewrite (parse_property_variable "label" "x" i data).
Qed.

(** [kind=x], with [x] holding an object that has a [__name__]: the property
  is that name. *)
Lemma construct_names_class (cls : pyclass) (w : world) (V : pyval)
  (name : string) :
  cls_base cls = Control → head (blocks w) = None → py_name V = Some name →
  ∃ w', construct cls [] [("kind", V)]
          (Frame [("x", V)] [Some [Call [] [Keyword (Some "kind") (ast_Name "x")]]]) w
        = (Ok (length (heap w)), w')
    ∧ heap w' !! length (heap w) ≫= _properties = Some [("kind", new_str name)].
Proof.
  intros Hbase Htop Hname.
  destruct (construct_properties cls [] [("kind", V)]
              (Frame [("x", V)] [Some [Call [] [Keyword (Some "kind") (ast_Name "x")]]])
              w [(Some "kind", new_str "x")] Hbase Htop) as (w' & Hrun & Hp).
  { reflexivity. }
  exists w'. split; [done|]. rewrite Hp.
  change (dict_update [] [("kind", V)]) with [("kind", V)].
  change (dict_keys [("kind", V)]) with ["kind"].
  rewrite parse_properties_single by reflexivity.
  unfold _parse_property. by rewrite Hname.
Qed.
Example construct_label_variable :
  heap (construct button [] [("label", three)] (site_label_x [("x", three)])
          empty_world).2 !! 0 ≫= _properties
  = Some [("label", new_str "{x}")].
Proof. reflexivity. Qed.

Example construct_label_literal :
  heap (construct button [] [("label", new_str "hello")]
          (Frame [("x", three)]
             [Some [Call [] [Keyword (Some "label") (ast_Literal (PyStr "hello"))]]])
          empty_world).2 !! 0 ≫= _properties
  = Some [("label", new_str "hello")].
Proof. reflexivity. Qed.

Example construct_kind_class :
  heap (construct button [] [("kind", Button_class)]
          (Frame [("x", Button_class)]
             [Some [Call [] [Keyword (Some "kind") (ast_Name "x")]]])
          empty_world).2 !! 0 ≫= _properties
  = Some [("kind", new_str "Button")].
Proof. reflexivity. Qed.

(** [color__0=x]: the source text is recorded under [color__0] and looked
  up under [color[0]], so the value is stringified. *)
Example construct_indexed_variable :
  heap (construct button [] [("color__0", three)]
          (call_site [("x", three)] []
             [Keyword (Some "color__0") (ast_Name "x")])
          empty_world).2 !! 0 ≫= _properties
  = Some [("color[0]", new_str "3")].
Proof. reflexivity. Qed.

(** * Further properties *)

(** ** Normal forms *)

(** X1.  The key that [_parse_property_key] returns is in normal form:
  it is not an indexed key ([name__index]) any more, and normalising it
  again returns it unchanged. *)
Theorem parse_property_key_normal_form (key : string) :
  ¬ indexed (_parse_property_key key)
  ∧ _parse_property_key (_parse_property_key key) = _parse_property_key key.
Proof.
  split; [|apply parse_property_key_idempotent].
  apply not_indexed_by_match. unfold _parse_property_key.
  destruct (Re.indexed_match key) as [[g1 g2]|] eqn:E; [|done].
  rewrite <- !append_assoc. apply indexed_match_bracket.
Qed.

Lemma parse_property_normalised locals key value code_arguments :
  normalised (_parse_property locals key value code_arguments).
Proof.
  unfold normalised, _parse_property. destruct (py_name value); [done|].
  destruct (find _ locals) as [[k v]|]; [done|].
  by destruct (is_str_dict_iterable value) eqn:E.
Qed.

(** While the loop runs, an entry is either still to be visited or settled. *)
Lemma parse_properties_settles locals code_arguments ks properties :
  NoDup ks →
  (∀ k, k ∈ ks → is_Some (dict_get properties k)) →
  (∀ k v, dict_get properties k = Some v →
          k ∈ ks ∨ (_parse_property_key k = k ∧ normalised v)) →
  settled (_parse_properties locals code_arguments ks properties).2.
Proof.
  revert properties. induction ks as [|k0 ks IH]; intros properties Hnd Hall Hinv.
  - intros k v Hk. destruct (Hinv k v Hk) as [?%elem_of_nil|]; done.
  - apply NoDup_cons in Hnd as [Hk0 Hnd].
    destruct (Hall k0) as [v0 Hv0]; [by left|].
    rewrite (parse_properties_cons _ _ _ _ _ _ Hv0). apply IH; [done| |].
    + intros k Hk. destruct (decide (k = _parse_property_key k0)) as [->|Hne].
      * rewrite parse_one_key. by eexists.
      * rewrite parse_one_other; [apply Hall; by right | | done].
        by intros ->.
    + intros k v Hk.
      destruct (decide (k = _parse_property_key k0)) as [->|Hne].
      * rewrite parse_one_key in Hk. injection Hk as <-. right.
        split; [apply parse_property_key_idempotent|].
        apply parse_property_normalised.
      * destruct (decide (k = k0)) as [->|Hne0].
        -- by rewrite parse_one_raw in Hk.
        -- rewrite parse_one_other in Hk by done.
           destruct (Hinv k v Hk) as [[-> | ?]%elem_of_cons | ?]; auto. done.
Qed.

(** X2.  Run over the keys of the dictionary itself (the default of
  [updated_property_list]), with the keys distinct as in a Python [dict],
  [_parse_properties] never raises [KeyError] and leaves every key in normal
  form and every value a string, a dictionary or an iterable. *)
Theorem parse_properties_settled (locals : dict string pyval)
  (code_arguments : code_arguments_t) (properties : dict string pyval) :
  NoDup (dict_keys properties) →
  (_parse_properties locals code_arguments (dict_keys properties) properties).1
  = Ok ()
  ∧ settled (_parse_properties locals code_arguments (dict_keys properties)
               properties).2.
Proof.
  intros Hnd. split; [by apply parse_properties_own_keys|].
  apply parse_properties_settles; [done| |].
  - intros k. apply dict_get_keys.
  - intros k v Hk. left. apply dict_get_keys. by eexists.
Qed.

Lemma parse_properties_settled_witness :
  settled (_parse_properties [("x", three)] [(Some "label", new_str "x")]
             ["label"; "width__0"; "kind"]
             [("label", three); ("width__0", literal (PyInt 3));
              ("kind", Button_class)]).2.
Proof.
  apply (parse_properties_settled [("x", three)] [(Some "label", new_str "x")]
           [("label", three); ("width__0", literal (PyInt 3));
            ("kind", Button_class)]).
  vm_compute. repeat constructor; rewrite ?elem_of_cons, ?elem_of_nil;
    intuition discriminate.
Defined.

(** ** __get_code_arguments *)

Lemma result_fold_ok {A B} (f : B → A → result B) (P : A → Prop)
  (l : list A) (acc : B) :
  (∀ acc x, (∃ r, f acc x = Ok r) ↔ P x) →
  (∃ r, result_fold f l acc = Ok r) ↔ Forall P l.
Proof.
  intros Hf. revert acc. induction l as [|x l IH]; intros acc; cbn.
  - split; [constructor | by eexists].
  - rewrite Forall_cons, <- (Hf acc x). split.
    + intros [r Hr]. destruct (f acc x) as [b|e]; [|done]. cbn in Hr.
      split; [by eexists|]. apply (IH b). by eexists.
    + intros [[b Hb] Hl]. rewrite Hb. cbn. by apply IH.
Qed.

Lemma forallb_Forall {A} (f : A → bool) (l : list A) :
  forallb f l = true ↔ Forall (λ x, f x = true) l.
Proof.
  induction l as [|x l IH]; cbn; [by split; [constructor|]|].
  by rewrite andb_true_iff, Forall_cons, IH.
Qed.

Lemma code_value_plain (e : ast_expr) :
  (∃ v, code_value e = Ok v) ↔ plain e = true.
Proof. destruct e; cbn; split; try done; try by eexists. by intros [? ?]. Qed.

Lemma scan_keywords_ok (keywords : list ast_keyword)
  (code_arguments : code_arguments_t) :
  (∃ r, result_fold
          (λ code_arguments kw,
             result_bind (code_value (kw_value kw)) (λ value,
               Ok (dict_set code_arguments (kw_arg kw) value)))
          keywords code_arguments = Ok r)
  ↔ forallb (λ kw, plain (kw_value kw)) keywords = true.
Proof.
  rewrite forallb_Forall.
  rewrite (result_fold_ok _ (λ kw, plain (kw_value kw) = true)); [done|].
  intros acc kw. rewrite <- code_value_plain. split.
  - intros [r Hr]. destruct (code_value (kw_value kw)); [by eexists | done].
  - intros [v ->]. by eexists.
Qed.

Lemma scan_call_ok (default_property : string) (node : ast_Call)
  (code_arguments : code_arguments_t) :
  (∃ r, scan_call default_property code_arguments node = Ok r)
  ↔ readable default_property node = true.
Proof.
  unfold scan_call, readable. rewrite andb_true_iff.
  destruct (call_args node) as [|arg args].
  - cbn [result_bind]. rewrite scan_keywords_ok. tauto.
  - case_bool_decide as Hd.
    + rewrite bool_decide_eq_false_2 by (by intros ?). cbn [orb].
      rewrite <- code_value_plain. split.
      * intros [r Hr]. destruct (code_value arg) as [v|]; [|done]. cbn in Hr.
        split; [by eexists|]. eapply scan_keywords_ok. by eexists.
      * intros [[v ->] Hk]. cbn. by eapply scan_keywords_ok.
    + rewrite bool_decide_eq_true_2 by done.
      cbn [orb result_bind]. rewrite scan_keywords_ok. tauto.
Qed.

(** X3.  [__get_code_arguments] returns, rather than raising, exactly
  when every source line of the frame parses and every call in it has a bare
  name or a literal wherever the method reads an argument: the first
  positional argument if the class has a default property, and the value of
  every keyword.  Later positional arguments are never read. *)
Theorem get_code_arguments_succeeds (default_property : string)
  (frame : FrameInfo) :
  (∃ code_arguments,
     __get_code_arguments default_property frame = Ok code_arguments)
  ↔ Forall (λ c, ∃ calls, c = Some calls
                          ∧ Forall (λ node, readable default_property node = true)
                              calls)
      (code_context frame).
Proof.
  unfold __get_code_arguments. apply result_fold_ok. intros acc [calls|]; cbn.
  - rewrite (result_fold_ok _ (λ node, readable default_property node = true)).
    + split; [by eexists | by intros (? & [= <-] & ?)].
    + intros acc' node. apply scan_call_ok.
  - split; [by intros [? ?] | by intros (? & ? & ?)].
Qed.

Lemma get_code_arguments_succeeds_witness :
  ∃ code_arguments,
    __get_code_arguments "label"
      (call_site [] [ast_Literal (PyInt 3); ast_Expression]
         [Keyword (Some "width") (ast_Name "w")])
    = Ok code_arguments.
Proof.
  apply (get_code_arguments_succeeds "label"). repeat constructor.
  eexists. split; [reflexivity|]. repeat constructor.
Defined.






Lemma scan_keywords_other (keywords : list ast_keyword)
  (code_arguments r : code_arguments_t) (k : option string) :
  k ∉ kw_arg <$> keywords →
  result_fold
    (λ code_arguments kw,
       result_bind (code_value (kw_value kw)) (λ value,
         Ok (dict_set code_arguments (kw_arg kw) value)))
    keywords code_arguments = Ok r →
  dict_get r k = dict_get code_arguments k.
Proof.
  revert code_arguments. induction keywords as [|kw keywords IH];
    intros acc Hk; cbn.
  - by intros [= <-].
  - rewrite fmap_cons in Hk. apply not_elem_of_cons in Hk as [Hne Hk].
    destruct (code_value (kw_value kw)) as [v|]; [|done]. cbn.
    intros Hr. rewrite (IH _ Hk Hr). by apply dict_get_set_ne.
Qed.

Lemma scan_keywords_get (keywords : list ast_keyword)
  (code_arguments r : code_arguments_t) (kw : ast_keyword) (v : pyval) :
  NoDup (kw_arg <$> keywords) → kw ∈ keywords →
  code_value (kw_value kw) = Ok v →
  result_fold
    (λ code_arguments kw,
       result_bind (code_value (kw_value kw)) (λ value,
         Ok (dict_set code_arguments (kw_arg kw) value)))
    keywords code_arguments = Ok r →
  dict_get r (kw_arg kw) = Some v.
Proof.
  revert code_arguments. induction keywords as [|kw0 keywords IH];
    intros acc Hnd Hin Hv; [by apply elem_of_nil in Hin|].
  rewrite fmap_cons in Hnd. apply NoDup_cons in Hnd as [Hk0 Hnd]. cbn.
  apply elem_of_cons in Hin as [<- | Hin].
  - rewrite Hv. cbn. intros Hr.
    rewrite (scan_keywords_other _ _ _ _ Hk0 Hr). apply dict_get_set_eq.
  - destruct (code_value (kw_value kw0)) as [v0|]; [|done]. cbn. by apply IH.
Qed.

(** X4.  What [__get_code_arguments] records for a call with distinct
  keyword names, as [_parse_property] reads it: a keyword whose value is a
  bare name is recorded as the identifier, one whose value is a literal as
  the [str] of the literal; the first positional argument is recorded under
  the default property when the class has one and no keyword has that name;
  a name that is not a keyword of the call has no entry, unless it is the
  default property and the call has a positional argument. *)
Theorem call_site_source_text (default_property : string)
  (locals : dict string pyval) (args : list ast_expr)
  (keywords : list ast_keyword) (code_arguments : code_arguments_t) :
  NoDup (kw_arg <$> keywords) →
  __get_code_arguments default_property (call_site locals args keywords)
  = Ok code_arguments →
  (∀ k id, Keyword (Some k) (ast_Name id) ∈ keywords →
           source_text code_arguments k = Some (Str.strip id))
  ∧ (∀ k d, Keyword (Some k) (ast_Literal d) ∈ keywords →
            source_text code_arguments k = Some (Str.strip (data_str d)))
  ∧ (∀ arg rest v, args = arg :: rest → default_property ≠ "" →
       Some default_property ∉ kw_arg <$> keywords →
       code_value arg = Ok v →
       source_text code_arguments default_property = Some (Str.strip (py_str v)))
  ∧ (∀ k, Some k ∉ kw_arg <$> keywords →
          (args = [] ∨ default_property = "" ∨ k ≠ default_property) →
          source_text code_arguments k = None).
Proof.
  intros Hnd. unfold __get_code_arguments, call_site. cbn [code_context result_fold].
  unfold scan_line. cbn [result_fold].
  destruct (scan_call default_property [] (Call args keywords)) as [r|] eqn:Hr;
    [|done].
  cbn. intros [= <-]. unfold scan_call in Hr. cbn [call_args call_keywords] in Hr.
  unfold source_text. split_and!.
  - intros k id Hin.
    destruct (match args with [] => _ | _ => _ end) as [acc|]; [|done]. cbn in Hr.
    pose proof (scan_keywords_get _ _ _ (Keyword (Some k) (ast_Name id)) _
                  Hnd Hin eq_refl Hr) as Hg.
    cbn in Hg. by rewrite Hg.
  - intros k d Hin.
    destruct (match args with [] => _ | _ => _ end) as [acc|]; [|done]. cbn in Hr.
    pose proof (scan_keywords_get _ _ _ (Keyword (Some k) (ast_Literal d)) _
                  Hnd Hin eq_refl Hr) as Hg.
    cbn in Hg. by rewrite Hg.
  - intros arg rest v -> Hd Hk Hv. rewrite bool_decide_eq_true_2, Hv in Hr by done.
    cbn in Hr. rewrite (scan_keywords_other _ _ _ _ Hk Hr).
    cbn. by rewrite decide_True.
  - intros k Hk Hcase. revert Hr.
    destruct args as [|arg rest]; cbn [result_bind].
    + intros Hr. by rewrite (scan_keywords_other _ _ _ _ Hk Hr).
    + case_bool_decide as Hd; cbn [result_bind].
      * destruct (code_value arg) as [v|]; [|done]. cbn [result_bind].
        intros Hr. rewrite (scan_keywords_other _ _ _ _ Hk Hr). cbn.
        rewrite decide_False; [done|]. intros [= ->].
        destruct Hcase as [? | [? | ?]]; done.
      * intros Hr. by rewrite (scan_keywords_other _ _ _ _ Hk Hr).
Qed.

Lemma call_site_source_text_witness :
  let code_arguments :=
    [(Some "label", literal (PyInt 3)); (Some "width", new_str "w")] in
  source_text code_arguments "width" = Some "w"
  ∧ source_text code_arguments "label" = Some "3"
  ∧ source_text code_arguments "height" = None.
Proof.
  intros code_arguments.
  destruct (call_site_source_text "label" [] [ast_Literal (PyInt 3)]
              [Keyword (Some "width") (ast_Name "w")] code_arguments)
    as (Hname & _ & Hpos & Hnone); [apply NoDup_singleton | reflexivity |].
  split_and!.
  - apply (Hname "width" "w"). by left.
  - apply (Hpos (ast_Literal (PyInt 3)) [] (literal (PyInt 3)) eq_refl);
      [done | | done].
    cbn. intros [H | H]%elem_of_cons; [discriminate H | by apply elem_of_nil in H].
  - apply Hnone; [|by right; right].
    cbn. intros [H | H]%elem_of_cons; [discriminate H | by apply elem_of_nil in H].
Defined.

(** ** _Element.__init__ and update *)

Lemma dict_get_elem {K V} `{EqDecision K} (d : dict K V) (k : K) (v : V) :
  NoDup (dict_keys d) → (k, v) ∈ d → dict_get d k = Some v.
Proof.
  unfold dict_keys. induction d as [|[k' v'] d IH]; intros Hnd Hin.
  - by apply elem_of_nil in Hin.
  - cbn in *. apply NoDup_cons in Hnd as [Hk' Hnd].
    apply elem_of_cons in Hin as [[= <- <-] | Hin].
    + by rewrite decide_True.
    + rewrite decide_False; [by apply IH|]. intros ->. apply Hk'.
      apply list_elem_of_fmap. by exists (k, v).
Qed.

Lemma dict_get_elem_inv {K V} `{EqDecision K} (d : dict K V) (k : K) (v : V) :
  dict_get d k = Some v → (k, v) ∈ d.
Proof.
  induction d as [|[k' v'] d IH]; [done|]. cbn.
  destruct (decide (k' = k)) as [->|Hne].
  - intros [= ->]. by left.
  - intros H. right. by apply IH.
Qed.

(** What the default property holds after the merge of [__init__]. *)
Lemma seed_lookup (default_property : string) (arg0 : pyval)
  (kwargs : dict string pyval) :
  NoDup (dict_keys kwargs) →
  dict_get (dict_update [(default_property, arg0)] kwargs) default_property
  = Some (default arg0 (dict_get kwargs default_property)).
Proof.
  intros Hnd. destruct (dict_get kwargs default_property) as [b|] eqn:E.
  - apply dict_get_update; [done|]. by apply dict_get_elem_inv.
  - rewrite dict_get_update_other.
    + cbn. by rewrite decide_True.
    + intros Hin%dict_get_keys. rewrite E in Hin. by destruct Hin.
Qed.

(** X5.  In [_Element.__init__] of a class with a default property, a
  keyword argument named like the default property overrides the first
  positional argument: when the call site can be read and the keys have
  distinct normal forms, the value stored under the default property is the
  normalised keyword value when there is one, else the normalised positional
  argument. *)
Theorem init_keyword_overrides_positional (w : world) (self : nat)
  (o : element) (arg0 : pyval) (rest : list pyval)
  (kwargs : dict string pyval) (frame : FrameInfo)
  (code_arguments : code_arguments_t) :
  let default_property := cls_DEFAULT_PROPERTY (el_class o) in
  let locals := filter (λ kv, Str.startswith "_" kv.1 = false) (f_locals frame) in
  heap w !! self = Some o → default_property ≠ "" →
  __get_code_arguments default_property frame = Ok code_arguments →
  NoDup (dict_keys kwargs) →
  NoDup (_parse_property_key
           <$> dict_keys (dict_update [(default_property, arg0)] kwargs)) →
  ∃ properties,
    _Element__init__ self (arg0 :: rest) kwargs frame w
    = (Ok (), World (<[self := set_properties properties (set_locals locals o)]>
                       (heap w)) (blocks w))
    ∧ dict_get properties (_parse_property_key default_property)
      = Some (_parse_property locals (_parse_property_key default_property)
                (default arg0 (dict_get kwargs default_property)) code_arguments).
Proof.
  intros dp locals Ho Hdp Hca Hnd Hnd'.
  rewrite (Element_init_run w self o (arg0 :: rest) kwargs frame _ Ho Hca).
  cbv zeta. fold dp locals. rewrite bool_decide_eq_true_2 by done.
  set (merged := dict_update [(dp, arg0)] kwargs) in *.
  destruct (parse_properties_updated locals code_arguments (dict_keys merged)
              merged Hnd') as [Hok Hup].
  { intros k. apply dict_get_keys. }
  eexists. split; [by rewrite Hok|].
  apply Hup.
  - apply dict_get_keys. unfold merged. rewrite seed_lookup by done. by eexists.
  - by apply seed_lookup.
Qed.

Lemma init_keyword_overrides_positional_witness :
  let w := World [blank button] [] in
  let site := call_site [] [ast_Literal (PyStr "a")]
                [Keyword (Some "label") (ast_Literal (PyStr "b"))] in
  ∃ properties,
    _Element__init__ 0 [literal (PyStr "a")] [("label", literal (PyStr "b"))]
      site w
    = (Ok (), World (<[0 := set_properties properties (set_locals [] (blank button))]>
                       (heap w)) (blocks w))
    ∧ dict_get properties "label" = Some (literal (PyStr "b")).
Proof.
  intros w site.
  apply (init_keyword_overrides_positional w 0 (blank button)
           (literal (PyStr "a")) [] [("label", literal (PyStr "b"))] site
           [(Some "label", literal (PyStr "b"))]); try done.
  - apply NoDup_singleton.
  - vm_compute. apply NoDup_singleton.
Defined.



(** X7.  In [update] the first positional argument overrides a keyword
  argument named like the default property, the other way round than in
  [__init__]: when the call site can be read and the updated keys have
  distinct normal forms, the value stored under the default property is the
  normalised positional argument. *)
Theorem update_positional_overrides_keyword (w : world) (self : nat)
  (o : element) (properties locals : dict string pyval) (arg0 : pyval)
  (rest : list pyval) (kwargs : dict string pyval) (frame : FrameInfo)
  (code_arguments : code_arguments_t) :
  let default_property := cls_DEFAULT_PROPERTY (el_class o) in
  heap w !! self = Some o → _properties o = Some properties →
  _Element__locals o = Some locals →
  __get_code_arguments default_property frame = Ok code_arguments →
  NoDup (_parse_property_key
           <$> dict_keys (dict_set kwargs default_property arg0)) →
  ∃ properties',
    update self (arg0 :: rest) kwargs frame w
    = (Ok (), World (<[self := set_properties properties' o]> (heap w)) (blocks w))
    ∧ dict_get properties' (_parse_property_key default_property)
      = Some (_parse_property locals (_parse_property_key default_property)
                arg0 code_arguments).
Proof.
  intros dp Ho Hp Hl Hca Hnd.
  rewrite (update_run w self o properties locals (arg0 :: rest) kwargs frame _
             Ho Hp Hl Hca).
  cbv zeta. fold dp. set (kwargs' := dict_set kwargs dp arg0) in *.
  pose proof (NoDup_fmap_1 _ _ Hnd) as Hnd'.
  assert ((dp, arg0) ∈ kwargs') as Hin
    by apply dict_get_elem_inv, dict_get_set_eq.
  destruct (parse_properties_updated locals code_arguments (dict_keys kwargs')
              (dict_update properties kwargs') Hnd) as [Hok Hup].
  { intros k [[k' v] [-> Hk]]%list_elem_of_fmap.
    erewrite dict_get_update; [by eexists | done | done]. }
  eexists. split; [by rewrite Hok|]. apply Hup.
  - apply list_elem_of_fmap. by exists (dp, arg0).
  - by apply dict_get_update.
Qed.

Lemma update_positional_overrides_keyword_witness :
  let w := World [plain_button] [] in
  let site := call_site [] [ast_Literal (PyStr "a")]
                [Keyword (Some "label") (ast_Literal (PyStr "b"))] in
  ∃ properties',
    update 0 [literal (PyStr "a")] [("label", literal (PyStr "b"))] site w
    = (Ok (), World (<[0 := set_properties properties' plain_button]> (heap w))
                (blocks w))
    ∧ dict_get properties' "label" = Some (literal (PyStr "a")).
Proof.
  intros w site.
  apply (update_positional_overrides_keyword w 0 plain_button [] [("x", three)]
           (literal (PyStr "a")) [] [("label", literal (PyStr "b"))] site
           [(Some "label", literal (PyStr "b"))]); try done.
  vm_compute. apply NoDup_singleton.
Defined.

(** X8.  [update] keeps the property map normalised: if every key was
  in normal form and every value a string, a dictionary or an iterable
  before, the keyword names are distinct and the call site can be read, then
  [update] returns and the same holds afterwards. *)
Theorem update_keeps_settled (w : world) (self : nat) (o : element)
  (properties locals : dict string pyval) (args : list pyval)
  (kwargs : dict string pyval) (frame : FrameInfo)
  (code_arguments : code_arguments_t) :
  heap w !! self = Some o → _properties o = Some properties →
  _Element__locals o = Some locals →
  __get_code_arguments (cls_DEFAULT_PROPERTY (el_class o)) frame
  = Ok code_arguments →
  NoDup (dict_keys kwargs) → settled properties →
  ∃ properties',
    update self args kwargs frame w
    = (Ok (), World (<[self := set_properties properties' o]> (heap w)) (blocks w))
    ∧ settled properties'.
Proof.
  intros Ho Hp Hl Hca Hnd Hs.
  rewrite (update_run w self o properties locals args kwargs frame _ Ho Hp Hl Hca).
  cbv zeta.
  set (kwargs' := match args with [] => kwargs | _ => _ end).
  assert (NoDup (dict_keys kwargs')) as Hnd'.
  { subst kwargs'. destruct args; [done|]. by apply dict_keys_set_NoDup. }
  assert (∀ k, k ∈ dict_keys kwargs'
               → is_Some (dict_get (dict_update properties kwargs') k)) as Hall.
  { intros k [[k' v] [-> Hk]]%list_elem_of_fmap.
    erewrite dict_get_update; [by eexists | done | done]. }
  eexists. split.
  - by rewrite parse_properties_ok.
  - apply parse_properties_settles; [done | done |].
    intros k v Hk. destruct (decide (k ∈ dict_keys kwargs')) as [?|Hnin]; [by left|].
    right. rewrite dict_get_update_other in Hk by done. by apply Hs.
Qed.

Lemma update_keeps_settled_witness :
  let w := World [plain_button] [] in
  ∃ properties',
    update 0 [] [("width__0", literal (PyInt 3))]
      (call_site [] [] [Keyword (Some "width__0") (ast_Literal (PyInt 3))]) w
    = (Ok (), World (<[0 := set_properties properties' plain_button]> (heap w))
                (blocks w))
    ∧ settled properties'.
Proof.
  intros w.
  apply (update_keeps_settled w 0 plain_button [] [("x", three)] []
           [("width__0", literal (PyInt 3))]
           (call_site [] [] [Keyword (Some "width__0") (ast_Literal (PyInt 3))])
           [(Some "width__0", literal (PyInt 3))]); try done.
  apply NoDup_singleton.
Defined.

(** X9.  [update] is idempotent: when the updated keys have distinct
  normal forms, calling [update] a second time with the same arguments from
  the same call site returns again and leaves every property as the first
  call left it. *)
Theorem update_idempotent (w : world) (self : nat) (o : element)
  (properties locals : dict string pyval) (args : list pyval)
  (kwargs : dict string pyval) (frame : FrameInfo)
  (code_arguments : code_arguments_t) :
  heap w !! self = Some o → _properties o = Some properties →
  _Element__locals o = Some locals →
  __get_code_arguments (cls_DEFAULT_PROPERTY (el_class o)) frame
  = Ok code_arguments →
  NoDup (_parse_property_key
           <$> dict_keys (match args with
                          | arg0 :: _ =>
                              dict_set kwargs (cls_DEFAULT_PROPERTY (el_class o)) arg0
                          | [] => kwargs
                          end)) →
  ∃ once twice w1 w2,
    update self args kwargs frame w = (Ok (), w1)
    ∧ heap w1 !! self ≫= _properties = Some once
    ∧ update self args kwargs frame w1 = (Ok (), w2)
    ∧ heap w2 !! self ≫= _properties = Some twice
    ∧ ∀ k, dict_get twice k = dict_get once k.
Proof.
  intros Ho Hp Hl Hca Hnd.
  set (kwargs' := match args with [] => kwargs | _ => _ end) in *.
  pose proof (NoDup_fmap_1 _ _ Hnd) as Hnd'.
  pose proof (update_run w self o properties locals args kwargs frame _
                Ho Hp Hl Hca) as Hrun1.
  cbv zeta in Hrun1. fold kwargs' in Hrun1.
  assert (∀ p k, k ∈ dict_keys kwargs'
                 → is_Some (dict_get (dict_update p kwargs') k)) as Hall.
  { intros p k [[k' v] [-> Hk]]%list_elem_of_fmap.
    erewrite dict_get_update; [by eexists | done | done]. }
  destruct (parse_properties_updated locals code_arguments (dict_keys kwargs')
              (dict_update properties kwargs') Hnd (Hall properties))
    as [Hok1 Hup1].
  set (once := (_parse_properties locals code_arguments (dict_keys kwargs')
                  (dict_update properties kwargs')).2) in *.
  set (o1 := set_properties once o).
  set (w1 := World (<[self := o1]> (heap w)) (blocks w)).
  assert (heap w1 !! self = Some o1) as Ho1 by by eapply lookup_stored.
  pose proof (update_run w1 self o1 once locals args kwargs frame code_arguments
                Ho1 ltac:(by destruct o) ltac:(by destruct o)
                ltac:(by destruct o)) as Hrun2.
  cbv zeta in Hrun2.
  replace (cls_DEFAULT_PROPERTY (el_class o1))
    with (cls_DEFAULT_PROPERTY (el_class o)) in Hrun2 by by destruct o.
  fold kwargs' in Hrun2.
  destruct (parse_properties_updated locals code_arguments (dict_keys kwargs')
              (dict_update once kwargs') Hnd (Hall once)) as [Hok2 Hup2].
  set (twice := (_parse_properties locals code_arguments (dict_keys kwargs')
                   (dict_update once kwargs')).2) in *.
  exists once, twice, w1, (World (<[self := set_properties twice o1]> (heap w1))
                             (blocks w1)).
  split_and!.
  - by rewrite Hrun1, Hok1.
  - rewrite Ho1. by destruct o.
  - by rewrite Hrun2, Hok2.
  - erewrite lookup_stored by done. by destruct o.
  - intros k.
    destruct (decide (k ∈ _parse_property_key <$> dict_keys kwargs'))
      as [Hin|Hnin].
    + apply list_elem_of_fmap in Hin as (k0 & -> & Hk0).
      apply list_elem_of_fmap in Hk0 as ([k0' v0] & -> & Hkv). cbn [fst].
      destruct (Hup1 k0' v0) as [-> _];
        [apply list_elem_of_fmap; by exists (k0', v0) | by apply dict_get_update|].
      destruct (Hup2 k0' v0) as [-> _];
        [apply list_elem_of_fmap; by exists (k0', v0) | by apply dict_get_update|].
      done.
    + destruct (decide (k ∈ dict_keys kwargs')) as [Hk|Hk].
      * assert (k ≠ _parse_property_key k) as Hraw.
        { intros Heq. apply Hnin. rewrite Heq. by apply list_elem_of_fmap_2. }
        destruct (Hall properties k Hk) as [v1 Hv1].
        destruct (Hall once k Hk) as [v2 Hv2].
        destruct (Hup1 k v1 Hk Hv1) as [_ H1].
        destruct (Hup2 k v2 Hk Hv2) as [_ H2].
        by rewrite H1, H2.
      * unfold twice. rewrite parse_properties_other by done.
        by rewrite dict_get_update_other.
Qed.

Lemma update_idempotent_witness :
  let w := World [plain_button] [] in
  let site := call_site [("x", three)] []
                [Keyword (Some "label") (ast_Name "x");
                 Keyword (Some "width__0") (ast_Literal (PyInt 3))] in
  ∃ once twice w1 w2,
    update 0 [] [("label", three); ("width__0", literal (PyInt 3))] site w
    = (Ok (), w1)
    ∧ heap w1 !! 0 ≫= _properties = Some once
    ∧ update 0 [] [("label", three); ("width__0", literal (PyInt 3))] site w1
      = (Ok (), w2)
    ∧ heap w2 !! 0 ≫= _properties = Some twice
    ∧ ∀ k, dict_get twice k = dict_get once k.
Proof.
  intros w site.
  apply (update_idempotent w 0 plain_button [] [("x", three)] []
           [("label", three); ("width__0", literal (PyInt 3))] site
           [(Some "label", new_str "x"); (Some "width__0", literal (PyInt 3))]);
    try done.
  vm_compute. repeat constructor; rewrite ?elem_of_cons, ?elem_of_nil;
    intuition discriminate.
Defined.

(** ** Construction and the frame of the caller *)

Lemma Element_init_frames (self : nat) (args : list pyval)
  (kwargs : dict string pyval) (frame1 frame2 : FrameInfo) (w : world) :
  code_context frame1 = code_context frame2 →
  filter (λ kv, Str.startswith "_" kv.1 = false) (f_locals frame1)
  = filter (λ kv, Str.startswith "_" kv.1 = false) (f_locals frame2) →
  _Element__init__ self args kwargs frame1 w
  = _Element__init__ self args kwargs frame2 w.
Proof.
  intros Hctx Hloc. unfold _Element__init__, __get_code_arguments.
  by rewrite Hctx, Hloc.
Qed.

(** X10.  A construction depends on the frame of the caller only
  through the source lines and the local variables whose name does not start
  with an underscore: two frames that agree on these give the same result
  and the same world. *)
Theorem construct_sees_visible_locals (cls : pyclass) (args : list pyval)
  (kwargs : dict string pyval) (frame1 frame2 : FrameInfo) (w : world) :
  code_context frame1 = code_context frame2 →
  filter (λ kv, Str.startswith "_" kv.1 = false) (f_locals frame1)
  = filter (λ kv, Str.startswith "_" kv.1 = false) (f_locals frame2) →
  construct cls args kwargs frame1 w = construct cls args kwargs frame2 w.
Proof.
  intros Hctx Hloc. rewrite !construct_run.
  destruct (__new__ cls w) as [[obj|e] w1]; [|done].
  assert (__init__ cls obj args kwargs frame1 w1
          = __init__ cls obj args kwargs frame2 w1) as ->; [|done].
  unfold __init__, html__init__, _Block__init__, _Control__init__.
  destruct (cls_base cls); rewrite ?bind_run;
    by rewrite (Element_init_frames obj args kwargs frame1 frame2 w1 Hctx Hloc).
Qed.

Lemma construct_sees_visible_locals_witness :
  construct button [] [("label", three)]
    (site_label_x [("_x", three); ("x", three); ("__name__", new_str "m")])
    empty_world
  = construct button [] [("label", three)] (site_label_x [("x", three)])
      empty_world.
Proof. apply construct_sees_visible_locals; reflexivity. Defined.

(** What [_Element.__init__] leaves when the source of the call cannot be
  read. *)
Lemma Element_init_unread (w : world) (self : nat) (o : element)
  (args : list pyval) (kwargs : dict string pyval) (frame : FrameInfo)
  (e : exn) :
  heap w !! self = Some o →
  __get_code_arguments (cls_DEFAULT_PROPERTY (el_class o)) frame = Raise e →
  let locals := filter (λ kv, Str.startswith "_" kv.1 = false) (f_locals frame) in
  let seed := match args with
              | arg0 :: _ =>
                  if bool_decide (cls_DEFAULT_PROPERTY (el_class o) ≠ "")
                  then [(cls_DEFAULT_PROPERTY (el_class o), arg0)] else []
              | [] => []
              end in
  _Element__init__ self args kwargs frame w
  = (Raise e, World (<[self := set_properties (dict_update seed kwargs)
                                 (set_locals locals o)]> (heap w)) (blocks w)).
Proof.
  intros Ho Hca locals seed. unfold _Element__init__.
  rewrite (bind_ok _ _ _ _ _ (deref_ok _ _ _ Ho)). cbv zeta. fold locals.
  rewrite (bind_ok _ _ _ _ _ (setattr_ok _ _ _ _ Ho)).
  pose proof (lookup_stored w self o (set_locals locals o) Ho) as Ho1.
  rewrite (bind_ok _ _ _ _ _ (setattr_ok _ _ _ _ Ho1)). rewrite store_twice.
  pose proof (lookup_stored w self o
    (set_properties [] (set_locals locals o)) Ho) as Ho2.
  assert (∃ o3, heap (World (<[self := o3]> (heap w)) (blocks w)) !! self = Some o3
                ∧ o3 = set_properties seed (set_locals locals o)
                ∧ (match args with
                   | [] => ret ()
                   | arg0 :: _ =>
                       if bool_decide (cls_DEFAULT_PROPERTY (el_class o) ≠ "")
                       then setattr (set_properties
                              [(cls_DEFAULT_PROPERTY (el_class o), arg0)]) self
                       else ret ()
                   end) (World (<[self := set_properties [] (set_locals locals o)]>
                                  (heap w)) (blocks w))
                  = (Ok (), World (<[self := o3]> (heap w)) (blocks w)))
    as (o3 & Ho3 & -> & Hseed).
  { eexists. split; [by eapply lookup_stored|]. split; [reflexivity|].
    subst seed. destruct args as [|arg0 args]; [done|].
    case_bool_decide; [|done].
    rewrite (setattr_ok _ _ _ _ Ho2), store_twice.
    by rewrite set_properties_twice. }
  rewrite (bind_ok _ _ _ _ _ Hseed).
  rewrite (bind_ok _ _ _ _ _ (getattr_ok _properties _ _ _ _ Ho3 ltac:(by destruct o))).
  rewrite (bind_ok _ _ _ _ _ (setattr_ok _ _ _ _ Ho3)). rewrite store_twice.
  rewrite set_properties_twice. by rewrite Hca.
Qed.



(** ** Composition of add *)

Lemma for_each_app {A} (l1 l2 : list A) (body : A → M unit) (w : world) :
  for_each (l1 ++ l2) body w = (for_each l1 body;; for_each l2 body) w.
Proof.
  revert w. induction l1 as [|x l1 IH]; intros w.
  - done.
  - cbn [app for_each]. rewrite !bind_run.
    destruct (body x w) as [[[]|e] w1]; [|done]. by rewrite IH, bind_run.
Qed.

(** X12.  [add] of a concatenation is [add] of the first elements
  followed by [add] of the others, results and failures included. *)
Theorem add_distributes (self : nat) (elements1 elements2 : list nat) (w : world) :
  add self (elements1 ++ elements2) w
  = (add self elements1;; add self elements2) w.
Proof.
  unfold add. rewrite !bind_run, for_each_app, bind_run.
  destruct (for_each elements1 _ w) as [[[]|e] w1]; [|done].
  by rewrite ?bind_run.
Qed.

(** ** The worlds left by the actions *)

Lemma add_world (self : nat) (elements : list nat) (w : world) :
  (add self elements w).2 = w
  ∨ ∃ o ch, heap w !! self = Some o ∧ _children o = Some ch
      ∧ (add self elements w).2
        = World (<[self := set_children (add_children ch elements) o]> (heap w))
            (blocks w).
Proof.
  destruct (heap w !! self ≫= _children) as [ch|] eqn:Hch.
  - right. destruct (heap w !! self) as [o|] eqn:Ho; [|done]. cbn in Hch.
    exists o, ch. by rewrite (add_run w self o ch elements Ho Hch).
  - left. destruct elements as [|e es]; [done|].
    by destruct (add_fail w self e es Hch) as [err ->].
Qed.

Lemma getattr_none {A} (field : element → option A) (w : world) (self : nat)
  (o : element) :
  heap w !! self = Some o → field o = None →
  getattr field self w = (Raise AttributeError, w).
Proof.
  intros Ho Hf. unfold getattr. rewrite (bind_ok _ _ _ _ _ (deref_ok _ _ _ Ho)).
  by rewrite Hf.
Qed.

Lemma update_world (self : nat) (args : list pyval)
  (kwargs : dict string pyval) (frame : FrameInfo) (w : world) :
  (update self args kwargs frame w).2 = w
  ∨ ∃ o p, heap w !! self = Some o ∧ is_Some (_properties o)
      ∧ (update self args kwargs frame w).2
        = World (<[self := set_properties p o]> (heap w)) (blocks w).
Proof.
  unfold update.
  destruct (heap w !! self) as [o|] eqn:Ho; cycle 1.
  { left. rewrite bind_run. unfold deref. by rewrite Ho. }
  rewrite (bind_ok _ _ _ _ _ (deref_ok _ _ _ Ho)). cbv zeta.
  set (kwargs' := match args with [] => kwargs | _ => _ end).
  destruct (_properties o) as [properties|] eqn:Hp; cycle 1.
  { left. by rewrite (bind_raise _ _ _ _ _ (getattr_none _ _ _ _ Ho Hp)). }
  right. exists o.
  rewrite (bind_ok _ _ _ _ _ (getattr_ok _ _ _ _ _ Ho Hp)).
  rewrite (bind_ok _ _ _ _ _ (setattr_ok _ _ _ _ Ho)).
  set (o1 := set_properties (dict_update properties kwargs') o).
  pose proof (lookup_stored w self o o1 Ho) as Ho'.
  destruct (__get_code_arguments _ frame) as [ca|e]; [|by eexists].
  rewrite (bind_ok _ _ _ _ _ (lift_run _ _)).
  rewrite (bind_ok _ _ _ _ _ (getattr_ok _properties _ _ _ _ Ho' ltac:(by destruct o))).
  destruct (_Element__locals o) as [locals|] eqn:Hl.
  - rewrite (bind_ok _ _ _ _ _ (getattr_ok _Element__locals _ _ _ locals Ho'
               ltac:(by destruct o; cbn in *))).
    rewrite (bind_ok _ _ _ _ _ (setattr_ok _ _ _ _ Ho')).
    rewrite store_twice. unfold o1. rewrite set_properties_twice.
    eexists. split; [done|]. split; [done|].
    by destruct (_parse_properties _ _ _ _).1.
  - rewrite (bind_raise _ _ _ _ _ (getattr_none _Element__locals _ _ _ Ho'
               ltac:(by destruct o; cbn in *))).
    by eexists.
Qed.

Lemma enter_world (self : nat) (w : world) :
  (__enter__ self w).2 = w
  ∨ ∃ o, heap w !! self = Some o ∧ cls_base (el_class o) ≠ Control
      ∧ (__enter__ self w).2 = World (heap w) (self :: blocks w).
Proof.
  unfold __enter__. rewrite bind_run. unfold deref.
  destruct (heap w !! self) as [o|] eqn:Ho; [|by left].
  destruct (cls_base (el_class o)) eqn:Hb; [right|right|by left];
    exists o; by rewrite Hb.
Qed.

Lemma exit_world (self : nat) (w : world) :
  (__exit__ self w).2 = w
  ∨ ∃ top, blocks w = top :: blocks (__exit__ self w).2
      ∧ heap (__exit__ self w).2 = heap w.
Proof.
  unfold __exit__. rewrite bind_run. unfold deref.
  destruct (heap w !! self) as [o|] eqn:Ho; [|by left].
  destruct (cls_base (el_class o)) eqn:Hb.
  - rewrite bind_run. unfold pop. destruct (blocks w) as [|top rest] eqn:Hbl.
    + by left.
    + right. by exists top.
  - rewrite bind_run. unfold pop. destruct (blocks w) as [|top rest] eqn:Hbl.
    + by left.
    + right. by exists top.
  - by left.
Qed.

Ltac staged_tac :=
  unfold staged; cbn;
  split_and?; try done; try (by intros [? ?]); try (by eauto).

Lemma blank_built (cls : pyclass) : built cls (blank cls).
Proof. split_and!; try done. staged_tac. Qed.

Lemma init_world (cls : pyclass) (args : list pyval)
  (kwargs : dict string pyval) (frame : FrameInfo) (w : world) (n : nat) :
  heap w !! n = Some (blank cls) →
  ∃ o, (__init__ cls n args kwargs frame w).2
       = World (<[n := o]> (heap w)) (blocks w)
    ∧ built cls o.
Proof.
  intros Hobj.
  destruct (__get_code_arguments (cls_DEFAULT_PROPERTY cls) frame) as [ca|e] eqn:Hca.
  - destruct (Element_init_ok w n _ args kwargs frame ca Hobj Hca) as [p Hp].
    destruct (Block_init_ok w n _ args kwargs frame ca Hobj Hca) as [p' Hp'].
    unfold __init__, html__init__, _Control__init__.
    destruct (cls_base cls) eqn:Hbase.
    + rewrite Hp'. eexists. split; [done|].
      split_and!; try done. unfold staged. cbn. rewrite Hbase. staged_tac.
    + rewrite (bind_ok _ _ _ _ _ Hp').
      set (o1 := set_children [] _).
      pose proof (lookup_stored w n _ o1 Hobj) as Ho1.
      destruct args as [|arg0 rest].
      * eexists. split; [done|].
        split_and!; try done. unfold staged. cbn. rewrite Hbase. staged_tac.
      * rewrite (bind_ok _ _ _ _ _ (setattr_ok _ _ _ _ Ho1)), store_twice.
        pose proof (lookup_stored w n _
          (set_ELEMENT_NAME (if py_truthy arg0 then Some arg0 else None) o1) Hobj)
          as Ho2.
        rewrite (setattr_ok _ _ _ _ Ho2), store_twice.
        eexists. split; [done|].
        split_and!; try done. unfold staged. cbn. rewrite Hbase. staged_tac.
        intros tag. destruct (py_truthy arg0) eqn:Ht; [|done]. by intros [= <-].
    + rewrite Hp. eexists. split; [done|].
      split_and!; try done. staged_tac.
  - pose proof (Element_init_unread w n _ args kwargs frame e Hobj Hca) as Hrun.
    cbv zeta in Hrun.
    exists (set_properties
              (dict_update
                 (match args with
                  | [] => []
                  | arg0 :: _ =>
                      if bool_decide (cls_DEFAULT_PROPERTY cls ≠ "")
                      then [(cls_DEFAULT_PROPERTY cls, arg0)] else []
                  end) kwargs)
              (set_locals (filter (λ kv, Str.startswith "_" kv.1 = false)
                             (f_locals frame)) (blank cls))).
    split.
    + unfold __init__, html__init__, _Block__init__, _Control__init__.
      destruct (cls_base cls); rewrite ?bind_run, Hrun; done.
    + split_and!; try done. staged_tac.
Qed.

(** ** Invariants of reachable worlds *)

Lemma children_of_store (w : world) (a c : nat) (o' : element) (bl : list nat) :
  a < length (heap w) →
  children_of (World (<[a := o']> (heap w)) bl) c
  = if decide (c = a) then default [] (_children o') else children_of w c.
Proof.
  intros Ha. unfold children_of. cbn [heap]. destruct (decide (c = a)) as [->|Hne].
  - by rewrite list_lookup_insert_eq.
  - by rewrite list_lookup_insert_ne.
Qed.

Lemma sound_store (w : world) (a : nat) (o o' : element) :
  sound w → heap w !! a = Some o →
  el_class o' = el_class o → staged o' →
  (∀ child, child ∈ default [] (_children o') → child < length (heap w)) →
  NoDup (default [] (_children o')) →
  sound (World (<[a := o']> (heap w)) (blocks w)).
Proof.
  intros (Hc & Hn & Hs & Hst) Ho Hcls Hstaged Hch Hnd.
  pose proof (lookup_lt_Some _ _ _ Ho) as Ha. split_and!.
  - intros c child. rewrite children_of_store by done. cbn [heap].
    rewrite length_insert. destruct (decide (c = a)); [apply Hch | apply Hc].
  - intros c. rewrite children_of_store by done.
    destruct (decide (c = a)); [done | apply Hn].
  - intros c Hin. cbn [heap blocks] in *. destruct (Hs c Hin) as (oc & Hoc & Hb).
    destruct (decide (c = a)) as [->|Hne].
    + exists o'. rewrite list_lookup_insert_eq by done. split; [done|].
      rewrite Hcls. congruence.
    + exists oc. by rewrite list_lookup_insert_ne.
  - intros b ob. cbn [heap]. destruct (decide (b = a)) as [->|Hne].
    + rewrite list_lookup_insert_eq by done. by intros [= <-].
    + rewrite list_lookup_insert_ne by done. apply Hst.
Qed.

Lemma sound_alloc (w : world) (cls : pyclass) :
  sound w → sound (World (heap w ++ [blank cls]) (blocks w)).
Proof.
  intros (Hc & Hn & Hs & Hst).
  assert (∀ c, children_of (World (heap w ++ [blank cls]) (blocks w)) c
               = children_of w c) as Hsame.
  { intros c. unfold children_of. cbn [heap].
    destruct (decide (c < length (heap w))) as [Hlt|Hge].
    - by rewrite lookup_app_l.
    - rewrite (lookup_ge_None_2 (heap w)) by lia.
      destruct (decide (c = length (heap w))) as [->|Hne].
      + by rewrite list_lookup_middle.
      + rewrite lookup_ge_None_2; [done|]. rewrite length_app. cbn. lia. }
  split_and!.
  - intros c child. rewrite Hsame. cbn [heap]. rewrite length_app. cbn.
    intros H%Hc. lia.
  - intros c. rewrite Hsame. apply Hn.
  - intros c Hin. destruct (Hs c Hin) as (o & Ho & Hb). exists o.
    split; [|done]. cbn [heap]. by apply lookup_app_l_Some.
  - intros a o. cbn [heap].
    intros [Ho | [_ Ho]]%lookup_app_Some; [by eapply Hst|].
    apply list_lookup_singleton_Some in Ho as [_ <-].
    apply (blank_built cls).
Qed.

Lemma sound_add (w : world) (self : nat) (elements : list nat) :
  sound w → Forall (λ e, e < length (heap w)) elements →
  sound (add self elements w).2.
Proof.
  intros Hs Hel.
  destruct (add_world self elements w) as [-> | (o & ch & Ho & Hch & ->)]; [done|].
  pose proof Hs as (Hc & Hn & _ & Hst).
  assert (children_of w self = ch) as Hcw
    by by rewrite (children_of_lookup _ _ _ Ho), Hch.
  apply (sound_store w self o); [done | done | by destruct o | | |].
  - specialize (Hst self o Ho). destruct o. unfold staged in *. cbn in *.
    destruct Hst as (? & H2 & H3 & ? & ?). split_and!; try done.
    + intros _. apply H2. by eexists.
    + intros Hn'. split; [by eexists|]. by apply H3.
  - replace (default [] (_children (set_children (add_children ch elements) o)))
      with (add_children ch elements) by by destruct o.
    intros child [Hin | Hin]%elem_of_add_children.
    + apply (Hc self). by rewrite Hcw.
    + by apply (proj1 (Forall_forall _ _) Hel).
  - replace (default [] (_children (set_children (add_children ch elements) o)))
      with (add_children ch elements) by by destruct o.
    destruct (add_children_spec ch elements) as (news & -> & Hnews & Hndn).
    apply NoDup_app. split_and!; [|intros x Hx Hx'|done].
    + rewrite <- Hcw. apply Hn.
    + apply Hnews in Hx' as [_ ?]. done.
Qed.

Lemma sound_update (w : world) (self : nat) (args : list pyval)
  (kwargs : dict string pyval) (frame : FrameInfo) :
  sound w → sound (update self args kwargs frame w).2.
Proof.
  intros Hs.
  destruct (update_world self args kwargs frame w)
    as [-> | (o & p & Ho & Hp & ->)]; [done|].
  pose proof Hs as (Hc & Hn & _ & Hst).
  apply (sound_store w self o); [done | done | by destruct o | | |].
  - specialize (Hst self o Ho). destruct o. unfold staged in *. cbn in *.
    destruct Hst as (H1 & H2 & H3 & ? & ?). split_and!; try done.
    + intros _. by apply H1.
    + intros Hch. split; [by eexists|]. by apply H2.
  - replace (default [] (_children (set_properties p o)))
      with (children_of w self)
      by by rewrite (children_of_lookup _ _ _ Ho); destruct o.
    apply Hc.
  - replace (default [] (_children (set_properties p o)))
      with (children_of w self)
      by by rewrite (children_of_lookup _ _ _ Ho); destruct o.
    apply Hn.
Qed.

Lemma sound_enter (w : world) (self : nat) : sound w → sound (__enter__ self w).2.
Proof.
  intros Hs. destruct (enter_world self w) as [-> | (o & Ho & Hb & ->)]; [done|].
  destruct Hs as (Hc & Hn & Hsc & Hst). split_and!; try done.
  intros c [-> | Hin]%elem_of_cons; [by exists o | by apply Hsc].
Qed.

Lemma sound_exit (w : world) (self : nat) : sound w → sound (__exit__ self w).2.
Proof.
  intros Hs. destruct (exit_world self w) as [-> | (top & Hbl & Hh)]; [done|].
  destruct Hs as (Hc & Hn & Hsc & Hst).
  assert (∀ c, children_of (__exit__ self w).2 c = children_of w c) as Hsame
    by (intros c; unfold children_of; by rewrite Hh).
  split_and!.
  - intros c child. rewrite Hsame, Hh. apply Hc.
  - intros c. rewrite Hsame. apply Hn.
  - intros c Hin. rewrite Hh. apply Hsc. rewrite Hbl. by right.
  - intros a o. rewrite Hh. apply Hst.
Qed.

Lemma sound_new (w : world) (cls : pyclass) : sound w → sound (__new__ cls w).2.
Proof.
  intros Hs. pose proof (sound_alloc w cls Hs) as Hs1.
  destruct (new_cases w cls) as [(_ & -> & _) | (c & o & ch & _ & Ho & Hch & ->)];
    [done|].
  cbn [snd]. pose proof Hs as (Hc & Hn & _ & Hst).
  assert (children_of w c = ch) as Hcw
    by by rewrite (children_of_lookup _ _ _ Ho), Hch.
  apply (sound_store (World (heap w ++ [blank cls]) (blocks w)) c o);
    [done | cbn [heap]; by apply lookup_app_l_Some | by destruct o | | |].
  - specialize (Hst c o Ho). destruct o. unfold staged in *. cbn in *.
    destruct Hst as (? & H2 & H3 & ? & ?). split_and!; try done.
    + intros _. apply H2. by eexists.
    + intros Hn'. split; [by eexists|]. by apply H3.
  - replace (default [] (_children (set_children (add_children ch [length (heap w)]) o)))
      with (add_children ch [length (heap w)]) by by destruct o.
    cbn [heap]. rewrite length_app.
    intros child [Hin | ->%list_elem_of_singleton]%elem_of_add_children;
      [|cbn; lia].
    specialize (Hc c child). rewrite Hcw in Hc. specialize (Hc Hin). lia.
  - replace (default [] (_children (set_children (add_children ch [length (heap w)]) o)))
      with (add_children ch [length (heap w)]) by by destruct o.
    destruct (add_children_spec ch [length (heap w)]) as (news & -> & Hnews & Hndn).
    apply NoDup_app. split_and!; [|intros x Hx Hx'|done].
    + rewrite <- Hcw. apply Hn.
    + apply Hnews in Hx' as [_ ?]. done.
Qed.

Lemma construct_world (cls : pyclass) (args : list pyval)
  (kwargs : dict string pyval) (frame : FrameInfo) (w : world) :
  ∃ o, (construct cls args kwargs frame w).2
       = World (<[length (heap w) := o]> (heap (__new__ cls w).2))
           (blocks (__new__ cls w).2)
    ∧ built cls o.
Proof.
  rewrite construct_run. pose proof (new_object w cls) as Hobj.
  pose proof (new_address w cls) as Haddr.
  destruct (__new__ cls w) as [[obj|e] w1]; cbn [snd] in *.
  - rewrite (Haddr obj eq_refl).
    destruct (init_world cls args kwargs frame w1 _ Hobj) as (o & Hw & Hb).
    exists o. split; [|done].
    by destruct (__init__ cls _ args kwargs frame w1) as [[[]|e] w2].
  - exists (blank cls). split; [|apply blank_built].
    by rewrite list_insert_id, world_eta.
Qed.

Lemma sound_construct (cls : pyclass) (args : list pyval)
  (kwargs : dict string pyval) (frame : FrameInfo) (w : world) :
  sound w → sound (construct cls args kwargs frame w).2.
Proof.
  intros Hs. apply (sound_new w cls) in Hs.
  destruct (construct_world cls args kwargs frame w) as (o & -> & Hcls & Hst & Hch).
  apply (sound_store _ _ (blank cls)); try done.
  - apply new_object.
  - rewrite Hch. by intros child ?%elem_of_nil.
  - rewrite Hch. constructor.
Qed.

Lemma sound_start : sound (World [] []).
Proof.
  split_and!.
  - intros c child. unfold children_of. cbn. by intros ?%elem_of_nil.
  - intros c. unfold children_of. cbn. constructor.
  - by intros c ?%elem_of_nil.
  - by intros a o.
Qed.

Lemma reachable_sound (w : world) : reachable w → sound w.
Proof.
  induction 1 as [|w a _ IH Href]; [apply sound_start|].
  destruct a as [cls args kwargs frame|self|self|self elements|self args kwargs frame];
    cbn [perform].
  - by apply sound_construct.
  - by apply sound_enter.
  - by apply sound_exit.
  - apply sound_add; [done|]. by destruct Href.
  - by apply sound_update.
Qed.

(** ** Sample programs *)

Lemma page_reachable : reachable (run page empty_world).
Proof.
  unfold run, page. cbn [foldl].
  repeat apply reachable_step; try apply reachable_start; try exact I;
    vm_compute; lia.
Qed.

Lemma page_assembled : assembled (run page empty_world).
Proof.
  unfold run, page. cbn [foldl].
  repeat apply assembled_step; try apply assembled_start; try exact I;
    try reflexivity; vm_compute; lia.
Qed.

(** ** What holds in every reachable world *)

(** X13.  In every world that a program reaches from the start by
  constructions, scope entries and exits, [add] and [update], a child list
  mentions allocated elements only and has no element twice. *)
Theorem reachable_child_lists (w : world) :
  reachable w → closed w ∧ ∀ c, NoDup (children_of w c).
Proof. intros (Hc & Hn & _)%reachable_sound. by split. Qed.

Lemma reachable_child_lists_witness :
  closed (run page empty_world)
  ∧ ∀ c, NoDup (children_of (run page empty_world) c).
Proof. apply reachable_child_lists, page_reachable. Defined.

(** X14.  A control never becomes a parent: in every reachable world
  a control has no child list, no children, and is not on the stack of
  scopes, so that no construction registers with it. *)
Theorem control_never_parent (w : world) (self : nat) (o : element) :
  reachable w → heap w !! self = Some o → cls_base (el_class o) = Control →
  _children o = None ∧ children_of w self = [] ∧ self ∉ blocks w.
Proof.
  intros (_ & _ & Hsc & Hst)%reachable_sound Ho Hb.
  assert (_children o = None) as Hch.
  { destruct (Hst self o Ho) as (_ & H & _).
    destruct (_children o); [|done]. by destruct H as [_ []]. }
  split_and!; [done | by rewrite (children_of_lookup _ _ _ Ho), Hch |].
  intros (o' & Ho' & Hb')%Hsc. congruence.
Qed.

Lemma control_never_parent_witness :
  _children (Element button (Some []) (Some []) None None None) = None
  ∧ children_of (run page empty_world) 1 = []
  ∧ 1 ∉ blocks (run page empty_world).
Proof.
  apply (control_never_parent (run page empty_world) 1
           (Element button (Some []) (Some []) None None None)
           page_reachable eq_refl eq_refl).
Defined.

(** X15.  In every reachable world the attributes of every object are
  assigned in the order of the initialisers: [_properties] only once
  [__locals] is, [_children] only once [_properties] is and only on a
  container, the instance tag only once [_children] is and only on an [html]
  element, [_content] only once the tag is; and a tag other than [None] is
  truthy. *)
Theorem reachable_attribute_order (w : world) (self : nat) (o : element) :
  reachable w → heap w !! self = Some o → staged o.
Proof. intros (_ & _ & _ & Hst)%reachable_sound. apply Hst. Qed.

Lemma reachable_attribute_order_witness :
  staged (Element _DefaultBlock (Some []) (Some []) (Some [1]) None None).
Proof.
  apply (reachable_attribute_order (run page empty_world) 0 _
           page_reachable eq_refl).
Defined.

(** ** The tree after a construction *)

Lemma children_of_alloc (w : world) (cls : pyclass) (bl : list nat) (c : nat) :
  children_of (World (heap w ++ [blank cls]) bl) c = children_of w c.
Proof.
  unfold children_of. cbn [heap].
  destruct (decide (c < length (heap w))) as [Hlt|Hge].
  - by rewrite lookup_app_l.
  - rewrite (lookup_ge_None_2 (heap w)) by lia.
    destruct (decide (c = length (heap w))) as [->|Hne].
    + by rewrite list_lookup_middle.
    + rewrite lookup_ge_None_2; [done|]. rewrite length_app. cbn. lia.
Qed.

Lemma construct_children (cls : pyclass) (args : list pyval)
  (kwargs : dict string pyval) (frame : FrameInfo) (w : world) (x : nat) :
  closed w →
  children_of (construct cls args kwargs frame w).2 x
  = if bool_decide (head (blocks w) = Some x
                    ∧ is_Some (heap w !! x ≫= _children))
    then children_of w x ++ [length (heap w)]
    else children_of w x.
Proof.
  intros Hc.
  destruct (construct_world cls args kwargs frame w) as (o & -> & _ & _ & Hch).
  destruct (new_shape w cls) as [_ Hlen].
  rewrite children_of_store by lia. rewrite Hch.
  destruct (decide (x = length (heap w))) as [->|Hx].
  { rewrite (children_of_ge w) by lia. rewrite bool_decide_eq_false_2; [done|].
    intros [_ [ch Hsome]]. by rewrite lookup_ge_None_2 in Hsome by lia. }
  destruct (new_cases w cls)
    as [(Hno & -> & _) | (c & oc & ch & Htop & Hoc & Hchc & ->)]; cbn [snd].
  - rewrite children_of_alloc. rewrite bool_decide_eq_false_2; [done|].
    intros [Htop [ch Hsome]].
    destruct Hno as [Hno | (c & Hc' & Hno)]; [congruence|].
    rewrite Htop in Hc'. injection Hc' as <-. by rewrite Hno in Hsome.
  - pose proof (lookup_lt_Some _ _ _ Hoc) as Hlt.
    assert (length (heap w) ∉ ch) as Hfresh.
    { intros Hin. specialize (Hc c (length (heap w))).
      rewrite (children_of_lookup _ _ _ Hoc), Hchc in Hc.
      specialize (Hc Hin). lia. }
    pose proof (children_of_store (World (heap w ++ [blank cls]) (blocks w))
                  c x (set_children (add_children ch [length (heap w)]) oc)
                  (blocks w)) as Hst.
    cbn [heap] in Hst. rewrite Hst by (rewrite length_app; lia).
    rewrite children_of_alloc.
    destruct (decide (x = c)) as [->|Hne].
    + rewrite bool_decide_eq_true_2
        by (split; [done | by rewrite Hoc; cbn; rewrite Hchc]).
      rewrite (children_of_lookup _ _ _ Hoc), Hchc. cbn.
      unfold add_children. cbn. by rewrite bool_decide_eq_false_2.
    + rewrite bool_decide_eq_false_2; [done|]. intros [Htop' _]. congruence.
Qed.

(** X16.  A construction changes the tree by one edge at most: in a
  reachable world, the child list of the topmost scope, if that scope has a
  child list, gets the new element appended, whether or not the initialiser
  raises; every other child list, that of the new element included, is what
  it was. *)
Theorem construct_registers_once (cls : pyclass) (args : list pyval)
  (kwargs : dict string pyval) (frame : FrameInfo) (w : world) :
  reachable w →
  ∀ x, children_of (construct cls args kwargs frame w).2 x
       = if bool_decide (head (blocks w) = Some x
                         ∧ is_Some (heap w !! x ≫= _children))
         then children_of w x ++ [length (heap w)]
         else children_of w x.
Proof.
  intros (Hc & _)%reachable_sound x. by apply construct_children.
Qed.

(** ** Trees put together by scopes alone *)

Lemma assembled_reachable (w : world) : assembled w → reachable w.
Proof.
  induction 1 as [|w a _ IH _ Href]; [constructor | by constructor].
Qed.

Lemma update_children (self : nat) (args : list pyval)
  (kwargs : dict string pyval) (frame : FrameInfo) (w : world) (x : nat) :
  children_of (update self args kwargs frame w).2 x = children_of w x.
Proof.
  destruct (update_world self args kwargs frame w)
    as [-> | (o & p & Ho & _ & ->)]; [done|].
  rewrite children_of_store by by eapply lookup_lt_Some.
  destruct (decide (x = self)) as [->|]; [|done].
  rewrite (children_of_lookup _ _ _ Ho). by destruct o.
Qed.

Lemma enter_children (self : nat) (w : world) (x : nat) :
  children_of (__enter__ self w).2 x = children_of w x.
Proof. by destruct (enter_world self w) as [-> | (o & _ & _ & ->)]. Qed.

Lemma exit_children (self : nat) (w : world) (x : nat) :
  children_of (__exit__ self w).2 x = children_of w x.
Proof.
  destruct (exit_world self w) as [-> | (top & _ & Hh)]; [done|].
  unfold children_of. by rewrite Hh.
Qed.

Lemma forest_construct (cls : pyclass) (args : list pyval)
  (kwargs : dict string pyval) (frame : FrameInfo) (w : world) :
  closed w → forest w → forest (construct cls args kwargs frame w).2.
Proof.
  intros Hc [Hold Hone].
  assert (∀ x child,
            child ∈ children_of (construct cls args kwargs frame w).2 x →
            child ∈ children_of w x
            ∨ (child = length (heap w) ∧ head (blocks w) = Some x
               ∧ x < length (heap w))) as Hcases.
  { intros x child. rewrite construct_children by done.
    case_bool_decide as Hd; [|by left].
    intros [Hin | ->%list_elem_of_singleton]%elem_of_app; [by left|].
    right. destruct Hd as [Htop [ch Hsome]]. split_and!; [done..|].
    destruct (heap w !! x) eqn:Hx; [by eapply lookup_lt_Some | done]. }
  split.
  - intros c child [Hin | (-> & _ & Hlt)]%Hcases; [by apply Hold | done].
  - intros c1 c2 child [H1 | (-> & Ht1 & _)]%Hcases
      [H2 | (E2 & Ht2 & _)]%Hcases.
    + by eapply Hone.
    + subst child. apply Hc in H1. lia.
    + apply Hc in H2. lia.
    + congruence.
Qed.

Lemma assembled_is_forest (w : world) : assembled w → forest w.
Proof.
  induction 1 as [|w a Hw IH Hadd Href].
  - split; intros ?; unfold children_of; cbn; intros; by apply elem_of_nil in H.
  - pose proof (reachable_sound w (assembled_reachable w Hw)) as (Hc & _).
    destruct IH as [Hold Hone].
    destruct a as [cls args kwargs frame|self|self|self elements
                   |self args kwargs frame]; cbn [perform]; [| | |done|].
    + by apply forest_construct.
    + split; intros ?; setoid_rewrite enter_children; eauto.
    + split; intros ?; setoid_rewrite exit_children; eauto.
    + split; intros ?; setoid_rewrite update_children; eauto.
Qed.

(** X17.  In a world reached without calling [add] directly, where the
  elements are put together by constructions inside scopes alone, the
  elements form a forest: every child was constructed after its parent, and
  no element has two parents. *)
Theorem assembled_forest (w : world) (c1 c2 child : nat) :
  assembled w → child ∈ children_of w c1 →
  c1 < child ∧ (child ∈ children_of w c2 → c1 = c2).
Proof.
  intros [Hold Hone]%assembled_is_forest Hin. split; [by apply Hold|].
  intros Hin2. by eapply Hone.
Qed.

Lemma assembled_forest_witness :
  0 < 1 ∧ (1 ∈ children_of (run page empty_world) 2 → 0 = 2).
Proof.
  apply (assembled_forest (run page empty_world) 0 2 1 page_assembled).
  vm_compute. by left.
Defined.

(** ** The outcome of a construction *)

Lemma new_orphan_attribute (w : world) (cls : pyclass) (c : nat) (o : element) :
  head (blocks w) = Some c → heap w !! c = Some o → _children o = None →
  __new__ cls w = (Raise AttributeError, World (heap w ++ [blank cls]) (blocks w)).
Proof.
  intros Htop Ho Hch. unfold __new__. rewrite bind_run. cbn [allocate].
  rewrite bind_run. unfold peek at 1. cbn [blocks]. rewrite Htop.
  rewrite bind_run. unfold add. cbn [for_each]. rewrite !bind_run.
  assert (heap (World (heap w ++ [blank cls]) (blocks w)) !! c = Some o) as Ho'
    by (cbn [heap]; by apply lookup_app_l_Some).
  by rewrite (getattr_none _children _ c o Ho' Hch).
Qed.

Lemma init_result (cls : pyclass) (args : list pyval)
  (kwargs : dict string pyval) (frame : FrameInfo) (w : world) (n : nat) :
  heap w !! n = Some (blank cls) →
  (__init__ cls n args kwargs frame w).1
  = result_bind (__get_code_arguments (cls_DEFAULT_PROPERTY cls) frame) (λ _,
      match cls_base cls, args with
      | Html, [] => Raise missing_tag
      | _, _ => Ok ()
      end).
Proof.
  intros Hobj.
  destruct (__get_code_arguments (cls_DEFAULT_PROPERTY cls) frame) as [ca|e] eqn:Hca.
  - destruct (Element_init_ok w n _ args kwargs frame ca Hobj Hca) as [p Hp].
    destruct (Block_init_ok w n _ args kwargs frame ca Hobj Hca) as [p' Hp'].
    unfold __init__, html__init__, _Control__init__. cbn [result_bind].
    destruct (cls_base cls) eqn:Hbase.
    + by rewrite Hp'.
    + rewrite (bind_ok _ _ _ _ _ Hp').
      set (o1 := set_children [] _).
      pose proof (lookup_stored w n _ o1 Hobj) as Ho1.
      destruct args as [|arg0 rest]; [done|].
      rewrite (bind_ok _ _ _ _ _ (setattr_ok _ _ _ _ Ho1)), store_twice.
      pose proof (lookup_stored w n _
        (set_ELEMENT_NAME (if py_truthy arg0 then Some arg0 else None) o1) Hobj)
        as Ho2.
      by rewrite (setattr_ok _ _ _ _ Ho2).
    + rewrite Hp. by destruct args.
  - pose proof (Element_init_unread w n _ args kwargs frame e Hobj Hca) as Hrun.
    cbv zeta in Hrun. cbn [result_bind].
    unfold __init__, html__init__, _Block__init__, _Control__init__.
    destruct (cls_base cls); rewrite ?bind_run, Hrun; done.
Qed.

(** X18.  The outcome of a construction in a reachable world.  If
  the topmost scope has no child list (its own construction failed early),
  [__new__] raises [AttributeError].  Otherwise the call raises what
  [__get_code_arguments] raises, if it does; else [html] called without
  positional argument raises the [RuntimeError] of the missing tag name; in
  every other case the call returns the new element. *)
Theorem construct_outcome (cls : pyclass) (args : list pyval)
  (kwargs : dict string pyval) (frame : FrameInfo) (w : world) :
  reachable w →
  let outcome :=
    result_bind (__get_code_arguments (cls_DEFAULT_PROPERTY cls) frame) (λ _,
      match cls_base cls, args with
      | Html, [] => Raise missing_tag
      | _, _ => Ok (length (heap w))
      end) in
  (construct cls args kwargs frame w).1
  = match head (blocks w) with
    | Some parent =>
        match heap w !! parent ≫= _children with
        | Some _ => outcome
        | None => Raise AttributeError
        end
    | None => outcome
    end.
Proof.
  intros (_ & _ & Hsc & _)%reachable_sound outcome.
  assert ((__new__ cls w).1 = Ok (length (heap w)) →
          (construct cls args kwargs frame w).1 = outcome) as Hgo.
  { intros Hnew. rewrite construct_run. pose proof (new_object w cls) as Hobj.
    destruct (__new__ cls w) as [[obj|e] w1]; [|done].
    cbn in Hnew, Hobj. injection Hnew as ->.
    pose proof (init_result cls args kwargs frame w1 _ Hobj) as Hres.
    subst outcome.
    destruct (__init__ cls _ args kwargs frame w1) as [[[]|e] w2];
      cbn [fst snd] in *;
      destruct (__get_code_arguments _ frame); cbn [result_bind] in *;
      try done; destruct (cls_base cls); try done; destruct args; try done; congruence. }
  destruct (head (blocks w)) as [c|] eqn:Htop.
  - destruct (Hsc c) as (o & Ho & _).
    { destruct (blocks w); [done|]. injection Htop as ->. by left. }
    rewrite Ho. cbn. destruct (_children o) as [ch|] eqn:Hch.
    + apply Hgo. by rewrite (new_top w cls c o ch).
    + by rewrite construct_run, (new_orphan_attribute w cls c o).
  - apply Hgo. by rewrite new_bottom.
Qed.

Lemma construct_outcome_witness :
  (construct html [] [] site_plain (run (take 2 page) empty_world)).1
  = Raise missing_tag.
Proof.
  apply (construct_outcome html [] [] site_plain (run (take 2 page) empty_world)).
  unfold run, page. cbn [take foldl].
  repeat apply reachable_step; try apply reachable_start; try exact I.
  vm_compute. lia.
Defined.

(** ** The outcome of an update *)

(** What [update] leaves when the source of the call cannot be read. *)
Lemma update_unread (w : world) (self : nat) (o : element)
  (properties : dict string pyval) (args : list pyval)
  (kwargs : dict string pyval) (frame : FrameInfo) (e : exn) :
  heap w !! self = Some o → _properties o = Some properties →
  __get_code_arguments (cls_DEFAULT_PROPERTY (el_class o)) frame = Raise e →
  let kwargs' := match args with
                 | arg0 :: _ => dict_set kwargs (cls_DEFAULT_PROPERTY (el_class o)) arg0
                 | [] => kwargs
                 end in
  update self args kwargs frame w
  = (Raise e, World (<[self := set_properties (dict_update properties kwargs') o]>
                       (heap w)) (blocks w)).
Proof.
  intros Ho Hp Hca kwargs'. unfold update.
  rewrite (bind_ok _ _ _ _ _ (deref_ok _ _ _ Ho)). cbv zeta. fold kwargs'.
  rewrite (bind_ok _ _ _ _ _ (getattr_ok _ _ _ _ _ Ho Hp)).
  rewrite (bind_ok _ _ _ _ _ (setattr_ok _ _ _ _ Ho)).
  by rewrite Hca.
Qed.

Lemma dict_get_update_keys {K V} `{EqDecision K} (d other : dict K V) (k : K) :
  NoDup (dict_keys other) → k ∈ dict_keys other →
  is_Some (dict_get (dict_update d other) k).
Proof.
  intros Hnd ([k' v] & -> & Hin)%list_elem_of_fmap.
  exists v. by apply dict_get_update.
Qed.

(** X19.  The outcome of [update] in a reachable world, on an object
  that has its properties, with distinct keyword names: it returns when the
  call site can be read, and then only; when it cannot, the exception of
  [__get_code_arguments] is raised after the arguments were merged, so the
  object keeps them raw, not normalised. *)
Theorem update_outcome (w : world) (self : nat) (o : element)
  (properties : dict string pyval) (args : list pyval)
  (kwargs : dict string pyval) (frame : FrameInfo) :
  reachable w → heap w !! self = Some o → _properties o = Some properties →
  NoDup (dict_keys kwargs) →
  let kwargs' := match args with
                 | arg0 :: _ => dict_set kwargs (cls_DEFAULT_PROPERTY (el_class o)) arg0
                 | [] => kwargs
                 end in
  match __get_code_arguments (cls_DEFAULT_PROPERTY (el_class o)) frame with
  | Ok _ => (update self args kwargs frame w).1 = Ok ()
  | Raise e =>
      update self args kwargs frame w
      = (Raise e, World (<[self := set_properties (dict_update properties kwargs') o]>
                           (heap w)) (blocks w))
  end.
Proof.
  intros (_ & _ & _ & Hst)%reachable_sound Ho Hp Hnd kwargs'.
  destruct (__get_code_arguments _ frame) as [ca|e] eqn:Hca;
    [|by apply update_unread].
  destruct (Hst self o Ho) as (Hloc & _).
  destruct Hloc as [locals Hl]; [by eexists|].
  rewrite (update_run w self o properties locals args kwargs frame ca Ho Hp Hl Hca).
  cbv zeta. cbn [fst]. fold kwargs'.
  assert (NoDup (dict_keys kwargs')) as Hnd'.
  { subst kwargs'. destruct args; [done|]. by apply dict_keys_set_NoDup. }
  apply parse_properties_ok; [done|].
  intros k Hk. by apply dict_get_update_keys.
Qed.

Lemma update_outcome_witness :
  update 1 [] [("label", three)]
    (call_site [] [] [Keyword (Some "label") ast_Expression])
    (run page empty_world)
  = (Raise ValueError,
     World (<[1 := set_properties (dict_update [] [("label", three)])
                     (Element button (Some []) (Some []) None None None)]>
              (heap (run page empty_world)))
       (blocks (run page empty_world))).
Proof.
  apply (update_outcome (run page empty_world) 1
           (Element button (Some []) (Some []) None None None) []
           [] [("label", three)]
           (call_site [] [] [Keyword (Some "label") ast_Expression])
           page_reachable eq_refl eq_refl).
  vm_compute. apply NoDup_singleton.
Defined.

(** ** Rendering of containers *)




Lemma result_map_ok {A B} (f : A → result B) (l : list A) (ys : list B) :
  Forall2 (λ x y, f x = Ok y) l ys → result_map f l = Ok ys.
Proof.
  induction 1 as [|x y l ys Hx _ IH]; [done|]. cbn. by rewrite Hx, IH.
Qed.


Lemma join_rendered_not_str (items : list pyval) (item : pyval) :
  item ∈ items → (∀ s, py_data item ≠ PyStr s) →
  join_rendered items = Raise TypeError.
Proof.
  intros Hin Hns. induction items as [|x items IH]; [by apply elem_of_nil in Hin|].
  cbn. destruct (py_data x) eqn:Hd; try done.
  apply elem_of_cons in Hin as [-> | Hin]; [by destruct (Hns s)|].
  by rewrite IH.
Qed.

Section RenderContainers.
Context {Gui : Type}.
Variable create_element :
  Gui → option pyval → dict string pyval → string * string.
Variable gui : Gui.

(** [_render] of a container, around [_render_children]. *)
Lemma render_through_children (h : list element) (self : nat) (o : element) :
  h !! self = Some o → renders_children o →
  ∃ wrap : string → pyval, ∀ fuel,
    _render create_element gui (S fuel) h self
    = result_bind
        match _children o with
        | None => Raise AttributeError
        | Some children =>
            result_bind (result_map (_render create_element gui fuel h) children)
              (λ rendered, result_bind (join_rendered rendered) (λ parts,
                 Ok (Str.join Str.line_break parts)))
        end
        (λ inner, Ok (wrap inner)).
Proof.
  intros Ho Hr. unfold renders_children in Hr.
  destruct (cls_base (el_class o)) eqn:Hb; [| |done].
  - destruct Hr as [p Hp]. eexists (λ inner, new_str _). intros fuel.
    cbn [_render]. rewrite Ho, Hb. unfold get_properties. rewrite Hp.
    cbn [result_bind]. reflexivity.
  - destruct Hr as ([p Hp] & [content Hc] & tag & Htag & Htruthy).
    eexists (λ inner, new_str _). intros fuel.
    cbn [_render]. rewrite Ho, Hb, Htag, Htruthy, Hp, Hc. reflexivity.
Qed.



(** X22.  When all the children of a container render but one of
  them returns something that is not a string (as an [html] text node whose
  content is not a string does), rendering the container raises
  [TypeError]. *)
Theorem render_child_not_text (h : list element) (self : nat) (o : element)
  (children : list nat) (values : list pyval) (value : pyval) (fuel : nat) :
  h !! self = Some o → renders_children o → _children o = Some children →
  Forall2 (λ child v, _render create_element gui fuel h child = Ok v)
    children values →
  value ∈ values → (∀ s, py_data value ≠ PyStr s) →
  _render create_element gui (S fuel) h self = Raise TypeError.
Proof.
  intros Ho Hr Hch Hvs Hin Hns.
  destruct (render_through_children h self o Ho Hr) as [wrap ->].
  rewrite Hch, (result_map_ok _ _ _ Hvs). cbn [result_bind].
  by rewrite (join_rendered_not_str values value).
Qed.




End RenderContainers.

(** ** Instances *)

Lemma open_page_reachable : reachable (run (take 2 page) empty_world).
Proof.
  unfold run, page. cbn [take foldl].
  repeat apply reachable_step; try apply reachable_start; try exact I.
  vm_compute. lia.
Qed.

Lemma construct_registers_once_witness :
  children_of (construct button [] [] site_plain
                 (run (take 2 page) empty_world)).2 0
  = [1].
Proof.
  apply (construct_registers_once button [] [] site_plain
           (run (take 2 page) empty_world) open_page_reachable 0).
Defined.



Lemma render_child_not_text_witness :
  _render input_factory () 2 (heap (run number_page empty_world)) 0
  = Raise TypeError.
Proof.
  apply (render_child_not_text input_factory ()
           (heap (run number_page empty_world)) 0
           (Element _DefaultBlock (Some []) (Some []) (Some [1]) None None)
           [1] [literal (PyInt 3)] (literal (PyInt 3)) 1 eq_refl).
  - by eexists.
  - reflexivity.
  - repeat constructor.
  - by left.
  - done.
Defined.


